(** * A path tracer for scenes of spheres: the program of
      [cpp/ray-tracing/main.cpp], embedded function by function.

    The file has four parts.  Part I is the model: the arithmetic of
    [double], the numeric helpers of the absent headers, and the functions of
    [main.cpp] ([ray_color], [random_scene], [ThreadSafeProgress::update],
    [renderImage]).  Part II gives concrete interpretations of the
    interfaces (IEEE binary64, exact rationals, small scenes).  Part III
    defines the notions the properties are stated with, and Part IV states
    and proves them.

    An [int] is modelled by an integer of [Z]: with the constants of
    [main.cpp] no operation on an [int] leaves the 32-bit range (depths run
    from 10 down to 0, loop indices stay below 600). *)

From Stdlib Require Import ZArith QArith List Bool Lia Lqa Floats.
From Equations Require Import Equations.
Import ListNotations.
Local Open Scope Z_scope.

(* ===================================================================== *)
(** * Part I.  The model                                                  *)
(* ===================================================================== *)

(** ** The arithmetic of [double]

    [main.cpp] computes with C++ [double]s.  The operations it uses are
    gathered in an interface, so that every function below is written once
    and read under two interpretations: machine binary64 numbers (Part II,
    [binary64]), under which the definitions run exactly as the compiled
    program does, and exact rationals ([exact]), under which the laws of an
    ordered field hold. *)

Class Arith (D : Type) : Type := {
  lit : Q -> D;             (* a decimal literal of the source text *)
  of_int : Z -> D;          (* the implicit conversion int -> double *)
  dadd : D -> D -> D;
  dsub : D -> D -> D;
  dmul : D -> D -> D;
  ddiv : D -> D -> D;
  dlt : D -> D -> bool;     (* operator< *)
  to_int : D -> Z           (* static_cast<int>: truncation toward zero *)
}.
Arguments lit {D _} _%_Q.

(** [std::sqrt] and the constant [infinity] of rtweekend.h. *)
Class Floating (D : Type) : Type := {
  dsqrt : D -> D;
  infinity : D
}.

Declare Scope double_scope.
Delimit Scope double_scope with D.
Notation "a + b" := (dadd a b) : double_scope.
Notation "a - b" := (dsub a b) : double_scope.
Notation "a * b" := (dmul a b) : double_scope.
Notation "a / b" := (ddiv a b) : double_scope.
Notation "a <? b" := (dlt a b) : double_scope.
Notation "a >? b" := (dlt b a) (only parsing) : double_scope.

(** ** State passing

    The functions of [main.cpp] draw random numbers from a process-wide
    generator and write to objects they are handed.  A computation that
    returns an [A] and may change a state [St] is a function
    [St -> A * St]; [x <- c ;; k] runs [c], then [k] on its result. *)

Definition State (St A : Type) : Type := St -> A * St.
Definition ret {St A : Type} (a : A) : State St A := fun s => (a, s).
Definition bind {St A B : Type} (c : State St A) (k : A -> State St B) : State St B :=
  fun s => let (a, s') := c s in k a s'.
Notation "x <- c ;; k" := (bind c (fun x => k))
  (at level 61, c at next level, right associativity).

(** C++ loops [for (int i = lo; ...; i += step)] whose trip count is known on
    entry: [n] iterations, the index starting at [i]. *)
Fixpoint for_loop {S : Type} (n : nat) (i step : Z) (body : Z -> S -> S) (s : S) : S :=
  match n with
  | O => s
  | Datatypes.S n' => for_loop n' (i + step) step body (body i s)
  end.

(** [for (int i = lo; i < hi; ++i) body] *)
Definition for_up {S : Type} (lo hi : Z) (body : Z -> S -> S) (s : S) : S :=
  for_loop (Z.to_nat (hi - lo)) lo 1 body s.

(** [for (int j = hi; j >= lo; --j) body] *)
Definition for_down {S : Type} (hi lo : Z) (body : Z -> S -> S) (s : S) : S :=
  for_loop (Z.to_nat (hi - lo + 1)) hi (-1) body s.

Section Model.

Context {D : Type} {arith : Arith D} {floating : Floating D}.

(** ** vec3.h and ray.h *)

(** Modelled from the spec: vec3.h is absent; a 3-vector of doubles with the
    standard componentwise operations of the numeric library. *)
Record vec3 := mkvec3 { x : D; y : D; z : D }.

Definition point3 := vec3.
Definition color := vec3.

(** [u + v], [u - v] and the componentwise [u * v]. *)
Definition vadd (u v : vec3) : vec3 :=
  mkvec3 (x u + x v)%D (y u + y v)%D (z u + z v)%D.
Definition vsub (u v : vec3) : vec3 :=
  mkvec3 (x u - x v)%D (y u - y v)%D (z u - z v)%D.
Definition vmul (u v : vec3) : vec3 :=
  mkvec3 (x u * x v)%D (y u * y v)%D (z u * z v)%D.
(** [t * v] and [v / t] for a scalar [t]. *)
Definition vscale (t : D) (v : vec3) : vec3 :=
  mkvec3 (t * x v)%D (t * y v)%D (t * z v)%D.
Definition vdiv (v : vec3) (t : D) : vec3 :=
  vscale (of_int 1 / t)%D v.

Definition length_squared (v : vec3) : D :=
  (x v * x v + y v * y v + z v * z v)%D.
Definition length (v : vec3) : D := dsqrt (length_squared v).
Definition unit_vector (v : vec3) : vec3 := vdiv v (length v).

(** Modelled from the spec: ray.h is absent; origin point and direction. *)
Record ray := mkray { origin : point3; direction : vec3 }.

(** ** The interfaces of the absent headers *)

(** rtweekend.h: [random_double()] draws from the process-wide generator;
    the generator's state is threaded explicitly. *)
Class Random (G : Type) : Type := {
  random_double : G -> D * G
}.

(** hittable.h: the result of an intersection test, with the material of the
    object that was hit. *)
Record hit_record (M : Type) := mkhit {
  p : point3;
  normal : vec3;
  mat_ptr : M;
  t : D;
  front_face : bool
}.
Arguments mkhit {M}.
Arguments p {M}.
Arguments normal {M}.
Arguments mat_ptr {M}.
Arguments t {M}.
Arguments front_face {M}.

(** material.h: [virtual bool scatter(r_in, rec, attenuation, scattered)].
    The two out-parameters are returned on success; scattering draws random
    numbers. *)
Class Material (G M : Type) : Type := {
  scatter : M -> ray -> hit_record M -> G -> option (color * ray) * G
}.

(** hittable.h: [virtual bool hit(r, t_min, t_max, rec)]. *)
Class Hittable (M W : Type) : Type := {
  hit : W -> ray -> D -> D -> option (hit_record M)
}.

(** ** [ray_color] (main.cpp, lines 36-57) *)

Section RayColor.

Context {G M W : Type} {material : Material G M} {hittable : Hittable M W}.

(** The colour of a ray that leaves the scene (lines 54-56). *)
Definition sky (r : ray) : color :=
  let unit_direction := unit_vector (direction r) in
  let t := (lit 0.5 * (y unit_direction + lit 1.0))%D in
  vadd (vscale (lit 1.0 - t)%D (mkvec3 (lit 1.0) (lit 1.0) (lit 1.0)))
       (vscale t (mkvec3 (lit 0.5) (lit 0.7) (lit 1.0))).

Equations(noind) ray_color (r : ray) (world : W) (depth : Z) (g : G) : color * G
  by wf (Z.to_nat depth) lt :=
ray_color r world depth g with Z_le_gt_dec depth 0 := {
  | left _ => (mkvec3 (lit 0.0) (lit 0.0) (lit 0.0), g)
  | right _ =>
      match hit world r (lit 0.001) infinity with
      | Some rec =>
          match scatter (mat_ptr rec) r rec g with
          | (Some (attenuation, scattered), g1) =>
              let (c, g2) := ray_color scattered world (depth - 1) g1 in
              (vmul attenuation c, g2)
          | (None, g1) => (mkvec3 (of_int 0) (of_int 0) (of_int 0), g1)
          end
      | None => (sky r, g)
      end }.
Next Obligation. lia. Qed.

(** The same body run with a bound on the nesting of calls: [fuel] is the
    number of activations of [ray_color] that may be live at once, and the
    third component of the result counts the recursive calls made. *)
Fixpoint ray_color_steps (fuel : nat) (r : ray) (world : W) (depth : Z) (g : G)
  : option (color * G * nat) :=
  match fuel with
  | O => None
  | S fuel' =>
      if depth <=? 0 then Some (mkvec3 (lit 0.0) (lit 0.0) (lit 0.0), g, O)
      else
        match hit world r (lit 0.001) infinity with
        | Some rec =>
            match scatter (mat_ptr rec) r rec g with
            | (Some (attenuation, scattered), g1) =>
                match ray_color_steps fuel' scattered world (depth - 1) g1 with
                | Some (c, g2, n) => Some (vmul attenuation c, g2, S n)
                | None => None
                end
            | (None, g1) => Some (mkvec3 (of_int 0) (of_int 0) (of_int 0), g1, O)
            end
        | None => Some (sky r, g, O)
        end
  end.

End RayColor.

(** ** The scene (main.cpp, lines 59-112) *)

(** The three materials [random_scene] constructs, each with the arguments
    of its constructor call. *)
Inductive material :=
| lambertian (albedo : color)
| metal (albedo : color) (fuzz : D)
| dielectric (index_of_refraction : D).

(** [sphere(center, radius, material)]. *)
Record sphere := mksphere {
  center : point3;
  radius : D;
  sphere_material : material
}.

(** hittable_list.h: the objects in the order they were added; [add] is
    [objects.push_back]. *)
Definition hittable_list := list sphere.
Definition add (world : hittable_list) (object : sphere) : hittable_list :=
  world ++ [object].

Section RandomScene.

Context {G : Type} {random : Random G}.

(** Modelled from the spec: rtweekend.h and vec3.h are absent;
    [random_double(min, max)], [color::random()] and
    [color::random(min, max)] built on [random_double()].  The components are
    drawn in the order x, y, z. *)
Definition random_double_in (min max : D) : State G D :=
  r <- random_double ;; ret (min + (max - min) * r)%D.
Definition color_random : State G color :=
  a <- random_double ;; b <- random_double ;; c <- random_double ;;
  ret (mkvec3 a b c).
Definition color_random_in (min max : D) : State G color :=
  a <- random_double_in min max ;; b <- random_double_in min max ;;
  c <- random_double_in min max ;;
  ret (mkvec3 a b c).

(** The test of line 73 on the centre of a candidate sphere. *)
Definition clear_of_metal_sphere (center : point3) : bool :=
  (length (vsub center (mkvec3 (of_int 4) (lit 0.2) (of_int 0))) >? lit 0.9)%D.

(** The body of the inner loop (lines 70-98) for the grid cell [(a, b)].
    C++ leaves open in which order the two draws of line 71 and the two
    [color::random()] of line 80 are made; they are made left to right
    here, and no property below depends on it. *)
Definition scene_cell (a b : Z) (world : hittable_list) : State G hittable_list :=
  choose_mat <- random_double ;;
  cx <- random_double ;;
  cz <- random_double ;;
  let center := mkvec3 (of_int a + lit 0.9 * cx)%D (lit 0.2) (of_int b + lit 0.9 * cz)%D in
  if clear_of_metal_sphere center then
    if (choose_mat <? lit 0.8)%D then
      (* diffuse *)
      c1 <- color_random ;;
      c2 <- color_random ;;
      let albedo := vmul c1 c2 in
      ret (add world (mksphere center (lit 0.2) (lambertian albedo)))
    else if (choose_mat <? lit 0.95)%D then
      (* metal *)
      albedo <- color_random_in (lit 0.5) (of_int 1) ;;
      fuzz <- random_double_in (of_int 0) (lit 0.5) ;;
      ret (add world (mksphere center (lit 0.2) (metal albedo fuzz)))
    else
      (* glass *)
      ret (add world (mksphere center (lit 0.2) (dielectric (lit 1.5))))
  else ret world.

(** One pass of the outer loop: [for (int b = -11; b < 11; b++)]. *)
Definition scene_row (a : Z) (s : hittable_list * G) : hittable_list * G :=
  for_up (-11) 11 (fun b '(world, g) => scene_cell a b world g) s.

Definition ground_sphere : sphere :=
  mksphere (mkvec3 (of_int 0) (of_int (-1000)) (of_int 0)) (of_int 1000)
           (lambertian (mkvec3 (lit 0.5) (lit 0.5) (lit 0.5))).
Definition sphere1 : sphere :=
  mksphere (mkvec3 (of_int 0) (of_int 1) (of_int 0)) (lit 1.0) (dielectric (lit 1.5)).
Definition sphere2 : sphere :=
  mksphere (mkvec3 (of_int (-4)) (of_int 1) (of_int 0)) (lit 1.0)
           (lambertian (mkvec3 (lit 0.4) (lit 0.2) (lit 0.1))).
Definition sphere3 : sphere :=
  mksphere (mkvec3 (of_int 4) (of_int 1) (of_int 0)) (lit 1.0)
           (metal (mkvec3 (lit 0.7) (lit 0.6) (lit 0.5)) (lit 0.0)).

Definition random_scene : State G hittable_list :=
  fun g =>
    let world := add [] ground_sphere in
    let (world, g) := for_up (-11) 11 scene_row (world, g) in
    let world := add world sphere1 in
    let world := add world sphere2 in
    let world := add world sphere3 in
    (world, g).

End RandomScene.

(** ** The progress tracker (main.cpp, lines 114-154) *)

(** Modelled from the spec: timer.h is absent; a [Timer] remembers the
    reading of the clock (in seconds) at its last reset, and [getElapsedS]
    is the time since then.  The clock is an input: each call that reads it
    is given the reading as [now]. *)
Record Timer := mkTimer { started : D }.
Definition getElapsedS (tm : Timer) (now : D) : D := (now - started tm)%D.
Definition reset (now : D) : Timer := mkTimer now.

Record ThreadSafeProgress := mkProgress {
  linesLeft : list Z;
  timer : Timer;
  estimatedTime : D  (* seconds *)
}.

(** [linesLeft[thread] = lineCount] on a [std::vector<int>].  An index
    outside the vector is undefined behaviour in C++; the model leaves the
    vector as it is. *)
Fixpoint store (l : list Z) (n : nat) (v : Z) : list Z :=
  match l, n with
  | [], _ => []
  | _ :: l', O => v :: l'
  | a :: l', S n' => a :: store l' n' v
  end.
Definition assign (l : list Z) (index value : Z) : list Z :=
  if index <? 0 then l else store l (Z.to_nat index) value.

(** What one call of [update] writes to [std::cerr]: the remaining lines of
    every worker and the estimate in minutes. *)
Record status_line := mkstatus { remaining : list Z; minutes : D }.

(** [init(threadCount)], the clock reading [now]. *)
Definition init (threadCount : Z) (now : D) (pr : ThreadSafeProgress) : ThreadSafeProgress :=
  let pr := for_up 0 threadCount
              (fun _ pr => mkProgress (linesLeft pr ++ [0]) (timer pr) (estimatedTime pr)) pr in
  mkProgress (linesLeft pr) (reset now) (estimatedTime pr).

(** [update(thread, lineCount)], run under the mutex.  [now] is the clock
    reading when [getElapsedS] is called and [now'] the reading when the
    timer is reset just after. *)
Definition update (now now' : D) (thread lineCount : Z) (pr : ThreadSafeProgress)
  : ThreadSafeProgress * status_line :=
  let pr :=
    if thread =? 0 then
      let elapsed := getElapsedS (timer pr) now in
      mkProgress (linesLeft pr) (reset now') (elapsed * of_int lineCount)%D
    else pr in
  let pr := mkProgress (assign (linesLeft pr) thread lineCount) (timer pr) (estimatedTime pr) in
  (pr, mkstatus (linesLeft pr) (estimatedTime pr / lit 60.0)%D).

(** ** The render worker (main.cpp, lines 16-25 and 156-175) *)

(** The constants of lines 16-25. *)
Record config := mkconfig {
  image_width : Z;
  samples_per_pixel_total : Z;
  threadCount : Z;
  aspect_ratio : D;
  max_depth : Z
}.
(** [samples_per_pixel_total / threadCount] on [int]s: the quotient truncated
    toward zero. *)
Definition samples_per_pixel (cfg : config) : Z :=
  Z.quot (samples_per_pixel_total cfg) (threadCount cfg).
Definition image_height (cfg : config) : Z :=
  to_int (of_int (image_width cfg) / aspect_ratio cfg)%D.

(** The values [main.cpp] gives them. *)
Definition main_config : config :=
  mkconfig 600 16 16 (lit 16.0 / lit 9.0)%D 10.

Section Render.

Context {G C P : Type} {random : Random G}.
Context {mat : Material G material} {hittable : Hittable material hittable_list}.

(** camera.h: [cam.get_ray(u, v)]; the lens offset is random. *)
Class Camera : Type := {
  get_ray : C -> D -> D -> State G ray
}.
(** color.h: [get_color(pixel_color, samples_per_pixel)]. *)
Class ToneMap : Type := {
  get_color : color -> Z -> P
}.
Context {camera : Camera} {tonemap : ToneMap}.

Variable cfg : config.
Variable cam : C.

(** image.h: the buffer a worker fills; [pushPixel] appends. *)
Record Image := mkImage { width : Z; height : Z; pixels : list P }.
Definition pushPixel (im : Image) (pixel : P) : Image :=
  mkImage (width im) (height im) (pixels im ++ [pixel]).

(** The calls a worker makes on the objects it shares or is handed, in the
    order it makes them.  [i] and [j] are the values of the loop indices at
    the call.  The worker's random draws come from a generator state [gen]
    of its own: the properties below hold whatever values are drawn. *)
Inductive call :=
| Update (thread lineCount : Z)      (* ThreadSafeProgress::singleton().update *)
| GetRay (i j : Z) (u v : D)         (* cam.get_ray *)
| PushPixel (i j : Z) (pixel : P).   (* image->pushPixel *)

Record worker := mkworker { gen : G; image : Image; calls : list call }.

(** The image coordinates of lines 165-166. *)
Definition pixel_u (i : Z) (jitter : D) : D :=
  ((of_int i + jitter) / of_int (image_width cfg - 1))%D.
Definition pixel_v (j : Z) (jitter : D) : D :=
  ((of_int j + jitter) / of_int (image_height cfg - 1))%D.

(** The body of the sample loop (lines 165-168). *)
Definition sample (world : hittable_list) (i j : Z) (s : color * worker) : color * worker :=
  let (pixel_color, w) := s in
  let (r1, g) := random_double (gen w) in
  let u := pixel_u i r1 in
  let (r2, g) := random_double g in
  let v := pixel_v j r2 in
  let (r, g) := get_ray cam u v g in
  let (c, g) := ray_color r world (max_depth cfg) g in
  (vadd pixel_color c, mkworker g (image w) (calls w ++ [GetRay i j u v])).

(** The body of the column loop (lines 162-172). *)
Definition render_pixel (world : hittable_list) (j i : Z) (w : worker) : worker :=
  let pixel_color := mkvec3 (of_int 0) (of_int 0) (of_int 0) in
  let (pixel_color, w) :=
    for_up 0 (samples_per_pixel cfg) (fun _ => sample world i j) (pixel_color, w) in
  let pixel := get_color pixel_color (samples_per_pixel cfg) in
  mkworker (gen w) (pushPixel (image w) pixel) (calls w ++ [PushPixel i j pixel]).

(** The body of the row loop (lines 159-173). *)
Definition render_row (world : hittable_list) (threadIndex j : Z) (w : worker) : worker :=
  let w := mkworker (gen w) (image w) (calls w ++ [Update threadIndex j]) in
  for_up 0 (image_width cfg) (render_pixel world j) w.

Definition renderImage (world : hittable_list) (threadIndex : Z) (w : worker) : worker :=
  for_down (image_height cfg - 1) 0 (render_row world threadIndex) w.

End Render.

End Model.

Arguments vec3 : clear implicits.
Arguments point3 : clear implicits.
Arguments color : clear implicits.
Arguments ray : clear implicits.
Arguments hit_record : clear implicits.
Arguments material : clear implicits.
Arguments sphere : clear implicits.
Arguments hittable_list : clear implicits.
Arguments Timer : clear implicits.
Arguments ThreadSafeProgress : clear implicits.
Arguments status_line : clear implicits.
Arguments config : clear implicits.
Arguments Image : clear implicits.
Arguments call : clear implicits.
Arguments worker : clear implicits.
Arguments Random : clear implicits.
Arguments Material : clear implicits.
Arguments Hittable : clear implicits.
Arguments Camera : clear implicits.
Arguments ToneMap : clear implicits.
Arguments mkhit {D M}.
Arguments p {D M}.
Arguments normal {D M}.
Arguments mat_ptr {D M}.
Arguments t {D M}.
Arguments front_face {D M}.

(* ===================================================================== *)
(** * Part II.  Interpretations                                           *)
(* ===================================================================== *)

(** ** IEEE binary64, the [double] of the compiled program *)

Module Binary64.

Definition of_int (n : Z) : float :=
  match n with
  | Z0 => PrimFloat.zero
  | Zpos _ => PrimFloat.of_uint63 (Uint63.of_Z n)
  | Zneg _ => PrimFloat.opp (PrimFloat.of_uint63 (Uint63.of_Z (- n)))
  end.

(** A decimal literal is the quotient of two integers that binary64 holds
    exactly; the division rounds it as the compiler rounds the literal. *)
Definition lit (q : Q) : float :=
  PrimFloat.div (of_int (Qnum q)) (of_int (Zpos (Qden q))).

(** [static_cast<int>] drops the fraction.  A value that is not finite has
    no defined conversion in C++; the model gives 0. *)
Definition to_int (f : float) : Z :=
  match Prim2SF f with
  | S754_finite s m e =>
      let magnitude :=
        if 0 <=? e then Zpos m * 2 ^ e else Z.quot (Zpos m) (2 ^ (- e)) in
      if s then - magnitude else magnitude
  | _ => 0
  end.

End Binary64.

#[export] Instance binary64 : Arith float := {|
  lit := Binary64.lit;
  of_int := Binary64.of_int;
  dadd := PrimFloat.add;
  dsub := PrimFloat.sub;
  dmul := PrimFloat.mul;
  ddiv := PrimFloat.div;
  dlt := PrimFloat.ltb;
  to_int := Binary64.to_int
|}.

#[export] Instance binary64_floating : Floating float := {|
  dsqrt := PrimFloat.sqrt;
  infinity := PrimFloat.infinity
|}.

(** ** Exact rationals: [double] without rounding *)

#[export] Instance exact : Arith Q := {|
  lit := fun q => q;
  of_int := inject_Z;
  dadd := Qplus;
  dsub := Qminus;
  dmul := Qmult;
  ddiv := Qdiv;
  dlt := fun a b => if Qlt_le_dec a b then true else false;
  to_int := fun q => Z.quot (Qnum q) (Zpos (Qden q))
|}.

(** ** Stand-ins for the absent headers

    Small implementations of the interfaces, used to run the model on
    concrete inputs.  The theorems of Part IV are proved for every
    implementation; these only supply examples. *)

Section StandIns.

Context {D : Type} {arith : Arith D} {floating : Floating D}.

(** A scripted generator: the draws are read off a list; an exhausted list
    draws 0. *)
#[export] Instance scripted : Random D (list D) := {|
  random_double := fun g =>
    match g with
    | [] => (of_int 0, [])
    | r :: g' => (r, g')
    end
|}.

Definition dot (u v : vec3 D) : D := (x u * x v + y u * y v + z u * z v)%D.
Definition at_ (r : ray D) (t : D) : point3 D := vadd (origin r) (vscale t (direction r)).
Definition negate (a : D) : D := (of_int 0 - a)%D.

(** Modelled from the spec: sphere.h is absent; the nearer root of the
    ray-sphere quadratic that lies in [[t_min, t_max]], the normal turned
    against the ray. *)
Definition sphere_hit (s : sphere D) (r : ray D) (t_min t_max : D)
  : option (hit_record D (material D)) :=
  let oc := vsub (origin r) (center s) in
  let a := length_squared (direction r) in
  let half_b := dot oc (direction r) in
  let c := (length_squared oc - radius s * radius s)%D in
  let discriminant := (half_b * half_b - a * c)%D in
  if (discriminant <? of_int 0)%D then None
  else
    let sqrtd := dsqrt discriminant in
    let near := ((negate half_b - sqrtd) / a)%D in
    let far := ((negate half_b + sqrtd) / a)%D in
    let outside (root : D) := ((root <? t_min) || (t_max <? root))%D in
    let found (root : D) :=
      let p := at_ r root in
      let outward_normal := vdiv (vsub p (center s)) (radius s) in
      let front := (dot (direction r) outward_normal <? of_int 0)%D in
      Some (mkhit p (if front then outward_normal else vscale (negate (of_int 1)) outward_normal)
                  (sphere_material s) root front) in
    if outside near then (if outside far then None else found far) else found near.

(** Modelled from the spec: hittable_list.h is absent; a linear scan that
    keeps the closest hit. *)
#[export] Instance hittable_list_hit : Hittable D (material D) (hittable_list D) := {|
  hit := fun world r t_min t_max =>
    fold_left
      (fun best object =>
         let closest_so_far := match best with Some rec => t rec | None => t_max end in
         match sphere_hit object r t_min closest_so_far with
         | Some rec => Some rec
         | None => best
         end)
      world None
|}.

(** Scattering without the random perturbations of material.h: a diffuse
    surface scatters along its normal, a metal reflects as a mirror and
    absorbs a ray reflected into the surface, glass lets the ray through. *)
#[export] Instance plain_scatter {G : Type} : Material D G (material D) := {|
  scatter := fun m r_in rec g =>
    match m with
    | lambertian albedo => (Some (albedo, mkray (p rec) (normal rec)), g)
    | metal albedo _ =>
        let v := unit_vector (direction r_in) in
        let reflected := vsub v (vscale (lit 2.0 * dot v (normal rec))%D (normal rec)) in
        if (dot reflected (normal rec) >? of_int 0)%D
        then (Some (albedo, mkray (p rec) reflected), g)
        else (None, g)
    | dielectric _ =>
        (Some (mkvec3 (lit 1.0) (lit 1.0) (lit 1.0), mkray (p rec) (direction r_in)), g)
    end
|}.

(** A pinhole camera: no lens, no random offset. *)
Record pinhole := mkpinhole {
  eye : point3 D;
  lower_left_corner : point3 D;
  horizontal : vec3 D;
  vertical : vec3 D
}.
#[export] Instance pinhole_camera {G : Type} : Camera D G pinhole := {|
  get_ray := fun c u v g =>
    (mkray (eye c)
           (vsub (vadd (vadd (lower_left_corner c) (vscale u (horizontal c)))
                       (vscale v (vertical c)))
                 (eye c)), g)
|}.

(** Modelled from the spec: color.h is absent; the average over the samples,
    its square root, clamped and scaled to 0..255. *)
Definition clamp (a lo hi : D) : D :=
  if (a <? lo)%D then lo else if (hi <? a)%D then hi else a.
Definition channel (samples : Z) (a : D) : Z :=
  to_int (lit 256.0 * clamp (dsqrt (a * (lit 1.0 / of_int samples))) (lit 0.0) (lit 0.999))%D.
#[export] Instance rgb : ToneMap D (Z * Z * Z) := {|
  get_color := fun c samples =>
    (channel samples (x c), channel samples (y c), channel samples (z c))
|}.

End StandIns.

(** A generator whose every draw lies in [0, 1): the draws are 0.0, 0.1,
    ..., 0.9 in turn. *)
#[export] Instance decimal_counter {D : Type} {arith : Arith D} : Random D Z := {|
  random_double := fun g => ((of_int (g mod 10) / of_int 10)%D, g + 1)
|}.

(** The rationals have neither square roots nor an infinity.  To run
    examples in exact arithmetic, the square root is that of the integer
    part, rounded down, and [infinity] is 2^1024, above every finite
    double.  No theorem depends on this choice. *)
#[export] Instance exact_floating : Floating Q := {|
  dsqrt := fun q => inject_Z (Z.sqrt (Z.quot (Qnum q) (Zpos (Qden q))));
  infinity := inject_Z (2 ^ 1024)
|}.

(** ** Concrete inputs for the examples *)

Module Demo.

(** A ray leaving the origin straight up. *)
Definition up : ray float :=
  mkray (mkvec3 (of_int 0) (of_int 0) (of_int 0)) (mkvec3 (of_int 0) (of_int 1) (of_int 0)).

(** A grey diffuse unit sphere above the origin. *)
Definition grey : sphere float :=
  mksphere (mkvec3 (of_int 0) (of_int 3) (of_int 0)) (of_int 1)
           (lambertian (mkvec3 (lit 0.5) (lit 0.5) (lit 0.5))).

Definition cam : pinhole (D := float) :=
  mkpinhole (mkvec3 (of_int 0) (of_int 0) (of_int 0))
            (mkvec3 (of_int (-2)) (of_int (-1)) (of_int (-1)))
            (mkvec3 (of_int 4) (of_int 0) (of_int 0))
            (mkvec3 (of_int 0) (of_int 2) (of_int 0)).

(** A worker about to start: its generator, an empty image, no call made. *)
Definition fresh (cfg : config float) (g : list float)
  : worker float (list float) (Z * Z * Z) :=
  mkworker g (mkImage (image_width cfg) (image_height cfg) []) [].

(** A tracker for two workers with 40 lines left each, its timer reset when
    the clock read 10 s. *)
Definition tracker : ThreadSafeProgress Q :=
  mkProgress [40; 40] (mkTimer 10%Q) 0%Q.

(** The same camera in exact arithmetic. *)
Definition exact_cam : pinhole (D := Q) :=
  mkpinhole (mkvec3 (of_int 0) (of_int 0) (of_int 0))
            (mkvec3 (of_int (-2)) (of_int (-1)) (of_int (-1)))
            (mkvec3 (of_int 4) (of_int 0) (of_int 0))
            (mkvec3 (of_int 0) (of_int 2) (of_int 0)).

End Demo.

(* ===================================================================== *)
(** * Part III.  The vocabulary of the properties                         *)
(* ===================================================================== *)

(** The values the index of a counted loop takes, in order. *)
Fixpoint indices (n : nat) (i step : Z) : list Z :=
  match n with
  | O => []
  | S n' => i :: indices n' (i + step) step
  end.

(** A call without its data: which call it is and for which pixel. *)
Definition outline {D P : Type} (c : call D P) : call unit unit :=
  match c with
  | Update thread lineCount => Update thread lineCount
  | GetRay i j _ _ => GetRay i j tt tt
  | PushPixel i j _ => PushPixel i j tt
  end.

(** The pixels pushed by a sequence of calls, each with its position. *)
Fixpoint pushes {D P : Type} (cs : list (call D P)) : list (Z * Z * P) :=
  match cs with
  | [] => []
  | PushPixel i j pixel :: cs' => (i, j, pixel) :: pushes cs'
  | _ :: cs' => pushes cs'
  end.

(** The number of rays cast for pixel [(i, j)] in a sequence of calls. *)
Definition is_sample {D P : Type} (i j : Z) (c : call D P) : bool :=
  match c with
  | GetRay i' j' _ _ => (i' =? i) && (j' =? j)
  | _ => false
  end.
Definition samples_at {D P : Type} (i j : Z) (cs : list (call D P)) : nat :=
  List.length (filter (is_sample i j) cs).

(** A call that works on a pixel of row [j]. *)
Definition on_row {D P : Type} (j : Z) (c : call D P) : Prop :=
  match c with
  | Update _ _ => False
  | GetRay _ j' _ _ => j' = j
  | PushPixel _ j' _ => j' = j
  end.

(** The columns left to right and the rows from [image_height - 1] down to
    0, as the loops of [renderImage] visit them. *)
Definition columns {D : Type} (cfg : config D) : list Z :=
  indices (Z.to_nat (image_width cfg)) 0 1.
Definition rows {D : Type} {arith : Arith D} (cfg : config D) : list Z :=
  indices (Z.to_nat (image_height cfg)) (image_height cfg - 1) (-1).

(** The pixel positions [(i, j)] in the order the two nested loops of
    [renderImage] reach them: the outer index [j] from [image_height - 1]
    down to 0, the inner index [i] from 0 up to [image_width - 1]. *)
Definition visiting_order {D : Type} {arith : Arith D} (cfg : config D) : list (Z * Z) :=
  flat_map (fun j => map (fun i => (i, j)) (columns cfg)) (rows cfg).

(** The calls of one pixel, one row, and a whole image. *)
Definition pixel_outline {D : Type} (cfg : config D) (i j : Z) : list (call unit unit) :=
  repeat (GetRay i j tt tt) (Z.to_nat (samples_per_pixel cfg)) ++ [PushPixel i j tt].
Definition row_pixels_outline {D : Type} (cfg : config D) (j : Z) : list (call unit unit) :=
  flat_map (fun i => pixel_outline cfg i j) (columns cfg).
Definition row_outline {D : Type} (cfg : config D) (thread j : Z) : list (call unit unit) :=
  Update thread j :: row_pixels_outline cfg j.
Definition image_outline {D : Type} {arith : Arith D} (cfg : config D) (thread : Z)
  : list (call unit unit) :=
  flat_map (row_outline cfg thread) (rows cfg).

(** [w'] is [w] after further calls of outline [o]; the image has received
    the pixels these calls push and nothing else. *)
Definition extends {D G P : Type} (o : list (call unit unit)) (w w' : worker D G P) : Prop :=
  exists cs : list (call D P),
    calls w' = calls w ++ cs /\
    pixels (image w') = pixels (image w) ++ map snd (pushes cs) /\
    map outline cs = o.

(** What [random_scene] guarantees of a small sphere it adds. *)
Definition small_sphere {D : Type} {arith : Arith D} {floating : Floating D}
  (s : sphere D) : Prop :=
  clear_of_metal_sphere (center s) = true /\ radius s = lit 0.2.

(** The scene [world0] has grown by at most [c * k] small spheres. *)
Definition grown {D : Type} {arith : Arith D} {floating : Floating D} {G : Type}
  (c : nat) (world0 : hittable_list D) (k : nat) (s : hittable_list D * G) : Prop :=
  exists added : list (sphere D),
    fst s = world0 ++ added /\
    (List.length added <= c * k)%nat /\
    Forall small_sphere added.

(** *** Runs of the progress tracker *)

(** One call of [update]: the two clock readings it is given, the worker
    that reports and the number of lines it has left. *)
Record report (D : Type) := mkreport {
  read_at : D;
  reset_at : D;
  worker_index : Z;
  lines : Z
}.
Arguments mkreport {D}.
Arguments read_at {D}.
Arguments reset_at {D}.
Arguments worker_index {D}.
Arguments lines {D}.

(** The reports made one after the other, each under the mutex: the tracker
    they leave and the status lines they print. *)
Fixpoint updates {D : Type} {arith : Arith D} (rs : list (report D))
  (pr : ThreadSafeProgress D) : ThreadSafeProgress D * list (status_line D) :=
  match rs with
  | [] => (pr, [])
  | r :: rs' =>
      let (pr1, line) := update (read_at r) (reset_at r) (worker_index r) (lines r) pr in
      let (pr2, printed) := updates rs' pr1 in
      (pr2, line :: printed)
  end.

(** The clock never runs backwards over the reports, from the reading [t0]
    on. *)
Fixpoint in_time_order (t0 : Q) (rs : list (report Q)) : Prop :=
  match rs with
  | [] => True
  | r :: rs' =>
      (t0 <= read_at r)%Q /\ (read_at r <= reset_at r)%Q /\ in_time_order (reset_at r) rs'
  end.

(** *** Further notions for the render worker *)

(** The progress reports among a sequence of calls: worker and count. *)
Fixpoint update_calls {D P : Type} (cs : list (call D P)) : list (Z * Z) :=
  match cs with
  | [] => []
  | Update thread lineCount :: cs' => (thread, lineCount) :: update_calls cs'
  | _ :: cs' => update_calls cs'
  end.

(** Two workers that agree on what a render leaves behind: the generator
    and the image. *)
Definition same_render {D G P : Type} (w1 w2 : worker D G P) : Prop :=
  gen w1 = gen w2 /\ image w1 = image w2.

(** *** The path of a ray *)

Section Paths.

Context {D : Type} {arith : Arith D} {floating : Floating D}.
Context {G M W : Type} {material : Material D G M} {hittable : Hittable D M W}.

(** How a path ends: the depth is used up, the material of the last hit
    absorbs the ray, or the ray [r] misses everything. *)
Inductive path_end : Type :=
| Exhausted
| Absorbed
| Escaped (r : ray D).

(** The colour [ray_color] returns where the path ends (lines 42, 51 and
    54-56). *)
Definition end_color (e : path_end) : color D :=
  match e with
  | Exhausted => mkvec3 (lit 0.0) (lit 0.0) (lit 0.0)
  | Absorbed => mkvec3 (of_int 0) (of_int 0) (of_int 0)
  | Escaped r => sky r
  end.

(** The path of the ray [r] when [n] bounces are left: the attenuations the
    materials return, one for each hit whose [scatter] succeeds, in the
    order of the bounces, and the way the path ends.  Each ray is tested
    against the world with the bounds of line 45 and each [scatter] is
    given the generator the one before left. *)
Fixpoint path (n : nat) (r : ray D) (world : W) (g : G) : list (color D) * path_end :=
  match n with
  | O => ([], Exhausted)
  | S n' =>
      match hit world r (lit 0.001) infinity with
      | Some rec =>
          match scatter (mat_ptr rec) r rec g with
          | (Some (attenuation, scattered), g1) =>
              let (attenuations, e) := path n' scattered world g1 in
              (attenuation :: attenuations, e)
          | (None, _) => ([], Absorbed)
          end
      | None => ([], Escaped r)
      end
  end.

End Paths.

Arguments path_end : clear implicits.

(** *** What a pixel is made of *)

Section PixelValues.

Context {D : Type} {arith : Arith D} {floating : Floating D}.
Context {G C P : Type} {random : Random D G}.
Context {mat : Material D G (material D)}.
Context {hittable : Hittable D (material D) (hittable_list D)}.
Context {camera : Camera D G C} {tonemap : ToneMap D P}.

Variable cfg : config D.
Variable cam : C.
Variable world : hittable_list D.

(** The colour of one sample of the pixel at [(i, j)]: two draws for the
    jitter, the camera's ray through [(u, v)], and the colour [ray_color]
    finds along it with [max_depth] bounces allowed. *)
Definition sample_color (i j : Z) : State G (color D) :=
  r1 <- random_double ;;
  r2 <- random_double ;;
  r <- get_ray cam (pixel_u cfg i r1) (pixel_v cfg j r2) ;;
  ray_color r world (max_depth cfg).

(** The colours of [n] samples of the pixel, taken one after the other. *)
Fixpoint sample_colors (i j : Z) (n : nat) : State G (list (color D)) :=
  match n with
  | O => ret []
  | S n' =>
      c <- sample_color i j ;;
      cs <- sample_colors i j n' ;;
      ret (c :: cs)
  end.

(** The sum of the colours [cs], added one by one to black. *)
Definition sum_of_colors (cs : list (color D)) : color D :=
  fold_left vadd cs (mkvec3 (of_int 0) (of_int 0) (of_int 0)).

(** The pixel at [(i, j)]: the sum of samples_per_pixel_total / threadCount
    samples, the quotient truncated, handed to [get_color] with their
    number. *)
Definition pixel_value (position : Z * Z) : State G P :=
  let (i, j) := position in
  cs <- sample_colors i j
          (Z.to_nat (Z.quot (samples_per_pixel_total cfg) (threadCount cfg))) ;;
  ret (get_color (sum_of_colors cs)
                 (Z.quot (samples_per_pixel_total cfg) (threadCount cfg))).

(** The pixels at the given positions, one after the other. *)
Fixpoint pixel_values (positions : list (Z * Z)) : State G (list P) :=
  match positions with
  | [] => ret []
  | position :: rest =>
      pixel <- pixel_value position ;;
      others <- pixel_values rest ;;
      ret (pixel :: others)
  end.

(** From [w] to [w'] the worker has drawn and appended the pixels at
    [positions], and nothing else. *)
Definition renders (positions : list (Z * Z)) (w w' : worker D G P) : Prop :=
  pixels (image w') = pixels (image w) ++ fst (pixel_values positions (gen w)) /\
  gen w' = snd (pixel_values positions (gen w)).

End PixelValues.

(** *** Ranges, in exact arithmetic *)

(** Every draw of the generator lies in [0, 1). *)
Definition draws_in_unit_interval {G : Type} (random : Random Q G) : Prop :=
  forall g : G, (0 <= fst (random_double g) < 1)%Q.

(** A colour whose channels lie between [lo] and [hi]. *)
Definition channels_within (lo hi : Q) (c : color Q) : Prop :=
  (lo <= x c <= hi)%Q /\ (lo <= y c <= hi)%Q /\ (lo <= z c <= hi)%Q.

(** Material parameters that make physical sense: an albedo between 0 and
    1 (between 0.5 and 1 for a metal), a fuzz between 0 and 0.5, and the
    refractive index of glass. *)
Definition valid_material (m : material Q) : Prop :=
  match m with
  | lambertian albedo => channels_within 0 1 albedo
  | metal albedo fuzz => channels_within 0.5 1 albedo /\ (0 <= fuzz <= 0.5)%Q
  | dielectric index_of_refraction => index_of_refraction = 1.5%Q
  end.

(** Coordinates the camera is handed for a pixel inside the image: between
    0 and image_width / (image_width - 1), resp. image_height /
    (image_height - 1), bounds included, and at most 1 before the column of
    index image_width - 1, resp. the row of index image_height - 1. *)
Definition coordinates_in_range (cfg : config Q) {P : Type} (c : call Q P) : Prop :=
  match c with
  | GetRay i j u v =>
      0 <= i < image_width cfg /\ 0 <= j < image_height cfg /\
      (0 <= u)%Q /\ (u <= inject_Z (image_width cfg) / inject_Z (image_width cfg - 1))%Q /\
      (0 <= v)%Q /\ (v <= inject_Z (image_height cfg) / inject_Z (image_height cfg - 1))%Q /\
      (i < image_width cfg - 1 -> (u <= 1)%Q) /\
      (j < image_height cfg - 1 -> (v <= 1)%Q)
  | _ => True
  end.

(** The calls [w'] has made since [w] all carry coordinates in range. *)
Definition in_range_since {G P : Type} (cfg : config Q) (w w' : worker Q G P) : Prop :=
  exists cs : list (call Q P),
    calls w' = calls w ++ cs /\ Forall (coordinates_in_range cfg) cs.

(* ===================================================================== *)
(** * Part IV.  Properties                                                *)
(* ===================================================================== *)

(** ** The path tracer *)

Section RayColorProperties.

Context {D : Type} {arith : Arith D} {floating : Floating D}.
Context {G M W : Type} {material : Material D G M} {hittable : Hittable D M W}.

(** [ray_color] satisfies the equation its source text reads as. *)
Lemma ray_color_body (r : ray D) (world : W) (depth : Z) (g : G) :
  ray_color r world depth g =
  if depth <=? 0 then (mkvec3 (lit 0.0) (lit 0.0) (lit 0.0), g)
  else
    match hit world r (lit 0.001) infinity with
    | Some rec =>
        match scatter (mat_ptr rec) r rec g with
        | (Some (attenuation, scattered), g1) =>
            let (c, g2) := ray_color scattered world (depth - 1) g1 in
            (vmul attenuation c, g2)
        | (None, g1) => (mkvec3 (of_int 0) (of_int 0) (of_int 0), g1)
        end
    | None => (sky r, g)
    end.
Proof.
  rewrite ray_color_equation_1.
  unfold ray_color_unfold_clause_1.
  destruct (Z_le_gt_dec depth 0) as [Hle | Hgt].
  - apply Z.leb_le in Hle. rewrite Hle. reflexivity.
  - assert (Hf : (depth <=? 0) = false) by (apply Z.leb_gt; lia).
    rewrite Hf. reflexivity.
Qed.

(** C1.  A ray that hits geometry at a positive depth: when the material
    of the hit scatters, the colour is the attenuation times the colour of
    the scattered ray at depth - 1; when it absorbs, the colour is black. *)
Theorem ray_color_hit (r : ray D) (world : W) (depth : Z) (g : G) (rec : hit_record D M) :
  0 < depth ->
  hit world r (lit 0.001) infinity = Some rec ->
  (forall attenuation scattered g1,
      scatter (mat_ptr rec) r rec g = (Some (attenuation, scattered), g1) ->
      ray_color r world depth g =
      (vmul attenuation (fst (ray_color scattered world (depth - 1) g1)),
       snd (ray_color scattered world (depth - 1) g1))) /\
  (forall g1,
      scatter (mat_ptr rec) r rec g = (None, g1) ->
      ray_color r world depth g = (mkvec3 (of_int 0) (of_int 0) (of_int 0), g1)).
Proof.
  intros Hdepth Hhit.
  assert (Hf : (depth <=? 0) = false) by (apply Z.leb_gt; exact Hdepth).
  split.
  - intros attenuation scattered g1 Hscatter.
    rewrite ray_color_body, Hf, Hhit, Hscatter.
    destruct (ray_color scattered world (depth - 1) g1) as [c g2].
    reflexivity.
  - intros g1 Hscatter.
    rewrite ray_color_body, Hf, Hhit, Hscatter.
    reflexivity.
Qed.

(** C2.  At depth zero or below the colour is black and no random number is
    drawn, whatever the ray and the scene. *)
Theorem ray_color_depth_exhausted (r : ray D) (world : W) (depth : Z) (g : G) :
  depth <= 0 ->
  ray_color r world depth g = (mkvec3 (lit 0.0) (lit 0.0) (lit 0.0), g).
Proof.
  intros Hdepth.
  rewrite ray_color_body.
  apply Z.leb_le in Hdepth.
  rewrite Hdepth.
  reflexivity.
Qed.

(** C3, amended.  A ray that hits nothing gets the sky gradient
    (1-t)*(1,1,1) + t*(0.5,0.7,1.0), t = 0.5*(unit_direction.y + 1), at every
    positive depth: the same colour whatever the positive depth. *)
Theorem ray_color_miss (r : ray D) (world : W) (depth : Z) (g : G) :
  0 < depth ->
  hit world r (lit 0.001) infinity = None ->
  let t := (lit 0.5 * (y (unit_vector (direction r)) + lit 1.0))%D in
  ray_color r world depth g =
  (vadd (vscale (lit 1.0 - t)%D (mkvec3 (lit 1.0) (lit 1.0) (lit 1.0)))
        (vscale t (mkvec3 (lit 0.5) (lit 0.7) (lit 1.0))), g).
Proof.
  intros Hdepth Hhit t.
  assert (Hf : (depth <=? 0) = false) by (apply Z.leb_gt; exact Hdepth).
  rewrite ray_color_body, Hf, Hhit.
  reflexivity.
Qed.

Lemma ray_color_steps_S (fuel : nat) (r : ray D) (world : W) (depth : Z) (g : G) :
  ray_color_steps (S fuel) r world depth g =
  if depth <=? 0 then Some (mkvec3 (lit 0.0) (lit 0.0) (lit 0.0), g, O)
  else
    match hit world r (lit 0.001) infinity with
    | Some rec =>
        match scatter (mat_ptr rec) r rec g with
        | (Some (attenuation, scattered), g1) =>
            match ray_color_steps fuel scattered world (depth - 1) g1 with
            | Some (c, g2, n) => Some (vmul attenuation c, g2, S n)
            | None => None
            end
        | (None, g1) => Some (mkvec3 (of_int 0) (of_int 0) (of_int 0), g1, O)
        end
    | None => Some (sky r, g, O)
    end.
Proof. reflexivity. Qed.

(** Running out of nested calls is the only way [ray_color_steps] fails, and
    more room changes nothing. *)
Lemma ray_color_steps_mono (fuel : nat) :
  forall (r : ray D) (world : W) (depth : Z) (g : G) (res : color D * G * nat),
    ray_color_steps fuel r world depth g = Some res ->
    ray_color_steps (S fuel) r world depth g = Some res.
Proof.
  induction fuel as [| fuel IH]; intros r world depth g res Hrun.
  - discriminate Hrun.
  - rewrite ray_color_steps_S in Hrun. rewrite ray_color_steps_S.
    destruct (depth <=? 0); [exact Hrun |].
    destruct (hit world r (lit 0.001) infinity) as [rec |]; [| exact Hrun].
    destruct (scatter (mat_ptr rec) r rec g) as [[[attenuation scattered] |] g1];
      [| exact Hrun].
    destruct (ray_color_steps fuel scattered world (depth - 1) g1) as [res' |] eqn:Hinner;
      [| discriminate Hrun].
    rewrite (IH _ _ _ _ _ Hinner).
    exact Hrun.
Qed.

(** The number of recursive calls [ray_color] makes from [depth]: it exists,
    is at most max(depth, 0), and [ray_color_steps] returns the value of
    [ray_color] exactly when it is given room for one more activation than
    that. *)
Lemma ray_color_bounces (k : nat) :
  forall (depth : Z) (r : ray D) (world : W) (g : G),
    Z.to_nat depth = k ->
    exists n : nat,
      Z.of_nat n <= Z.max depth 0 /\
      ray_color_steps (S n) r world depth g = Some (ray_color r world depth g, n) /\
      ray_color_steps n r world depth g = None.
Proof.
  induction k as [| k IH]; intros depth r world g Hk.
  - exists O. split; [lia |]. split; [| reflexivity].
    rewrite ray_color_steps_S, ray_color_body.
    assert (Hle : (depth <=? 0) = true) by (apply Z.leb_le; lia).
    rewrite Hle. reflexivity.
  - assert (Hf : (depth <=? 0) = false) by (apply Z.leb_gt; lia).
    rewrite ray_color_body, Hf.
    destruct (hit world r (lit 0.001) infinity) as [rec |] eqn:Hhit.
    + destruct (scatter (mat_ptr rec) r rec g) as [[[attenuation scattered] |] g1] eqn:Hsc.
      * destruct (IH (depth - 1) scattered world g1 ltac:(lia)) as (n & Hn & Hrun & Hshort).
        exists (S n). split; [lia |]. split.
        -- rewrite ray_color_steps_S, Hf, Hhit, Hsc, Hrun.
           destruct (ray_color scattered world (depth - 1) g1) as [c g2].
           reflexivity.
        -- rewrite ray_color_steps_S, Hf, Hhit, Hsc, Hshort. reflexivity.
      * exists O. split; [lia |]. split; [| reflexivity].
        rewrite ray_color_steps_S, Hf, Hhit, Hsc. reflexivity.
    + exists O. split; [lia |]. split; [| reflexivity].
      rewrite ray_color_steps_S, Hf, Hhit. reflexivity.
Qed.

(** C4.  [ray_color] terminates for every ray, scene and depth: the chain of
    recursive calls, each at depth - 1, has some length n <= max(depth, 0)
    (none at all once depth <= 0); with room for more than n nested
    activations the run returns the value of [ray_color] after exactly n
    recursive calls, and with less it cannot finish. *)
Theorem ray_color_terminates (r : ray D) (world : W) (depth : Z) (g : G) :
  exists n : nat,
    Z.of_nat n <= Z.max depth 0 /\
    (forall fuel, (n < fuel)%nat ->
       ray_color_steps fuel r world depth g = Some (ray_color r world depth g, n)) /\
    (forall fuel, (fuel <= n)%nat ->
       ray_color_steps fuel r world depth g = None).
Proof.
  destruct (ray_color_bounces (Z.to_nat depth) depth r world g eq_refl)
    as (n & Hbound & Hrun & Hshort).
  exists n. split; [exact Hbound |]. split.
  - intros fuel Hfuel.
    replace fuel with ((fuel - S n) + S n)%nat by lia.
    induction (fuel - S n)%nat as [| extra IHextra].
    + exact Hrun.
    + apply ray_color_steps_mono. exact IHextra.
  - intros fuel Hfuel.
    destruct (ray_color_steps fuel r world depth g) as [res |] eqn:Hres; [| reflexivity].
    exfalso.
    assert (Hup : ray_color_steps n r world depth g = Some res).
    { replace n with ((n - fuel) + fuel)%nat by lia.
      induction (n - fuel)%nat as [| extra IHextra].
      - exact Hres.
      - apply ray_color_steps_mono. exact IHextra. }
    rewrite Hshort in Hup. discriminate Hup.
Qed.

End RayColorProperties.

(** The ray [up] meets the grey sphere at (0,2,0): it is scattered back
    down with the sphere's albedo as attenuation. *)
Lemma ray_color_hit_grey :
  ray_color (G := list float) Demo.up [Demo.grey] 3 [] =
  (vmul (mkvec3 (lit 0.5) (lit 0.5) (lit 0.5))
        (fst (ray_color (G := list float)
                (mkray (mkvec3 (of_int 0) (of_int 2) (of_int 0))
                       (mkvec3 (of_int 0) (of_int (-1)) (of_int 0)))
                [Demo.grey] (3 - 1) [])),
   snd (ray_color (G := list float)
          (mkray (mkvec3 (of_int 0) (of_int 2) (of_int 0))
                 (mkvec3 (of_int 0) (of_int (-1)) (of_int 0)))
          [Demo.grey] (3 - 1) [])).
Proof.
  refine (proj1 (ray_color_hit Demo.up [Demo.grey] 3 []
                   (mkhit (mkvec3 (of_int 0) (of_int 2) (of_int 0))
                          (mkvec3 (of_int 0) (of_int (-1)) (of_int 0))
                          (sphere_material Demo.grey) (of_int 2) true)
                   _ _) _ _ _ _).
  - lia.
  - vm_compute. reflexivity.
  - vm_compute. reflexivity.
Defined.

(** At depth 0 the sphere in the way of [up] is not even looked at. *)
Lemma ray_color_depth_exhausted_grey :
  ray_color (G := list float) Demo.up [Demo.grey] 0 [] =
  (mkvec3 (lit 0.0) (lit 0.0) (lit 0.0), []).
Proof.
  apply (ray_color_depth_exhausted Demo.up [Demo.grey] 0 []).
  lia.
Defined.

(** In the empty scene [up] sees the zenith of the sky. *)
Lemma ray_color_miss_empty :
  ray_color (G := list float) Demo.up ([] : hittable_list float) 10 [] =
  (vadd (vscale (lit 1.0 - lit 0.5 * (y (unit_vector (direction Demo.up)) + lit 1.0))%D
                (mkvec3 (lit 1.0) (lit 1.0) (lit 1.0)))
        (vscale (lit 0.5 * (y (unit_vector (direction Demo.up)) + lit 1.0))%D
                (mkvec3 (lit 0.5) (lit 0.7) (lit 1.0))), []).
Proof.
  apply (ray_color_miss Demo.up ([] : hittable_list float) 10 []).
  - lia.
  - vm_compute. reflexivity.
Defined.

(** C3 as stated fails at depth 0: in the empty scene [up] hits nothing, its
    colour at depth 10 is the sky's (0.5, 0.7, 1.0), and at depth 0 it is
    black. *)
Lemma ray_color_miss_depth_zero :
  hit ([] : hittable_list float) Demo.up (lit 0.001) infinity = None /\
  ray_color (G := list float) Demo.up ([] : hittable_list float) 10 [] =
    (mkvec3 (lit 0.5) (lit 0.7) (lit 1.0), []) /\
  ray_color (G := list float) Demo.up ([] : hittable_list float) 0 [] =
    (mkvec3 (lit 0.0) (lit 0.0) (lit 0.0), []) /\
  (x (fst (ray_color (G := list float) Demo.up ([] : hittable_list float) 0 []))
   <? x (fst (ray_color (G := list float) Demo.up ([] : hittable_list float) 10 [])))%D = true.
Proof.
  split; [vm_compute; reflexivity |].
  split; [vm_compute; reflexivity |].
  split; vm_compute; reflexivity.
Qed.

(** ** Loops *)

(** An invariant indexed by the number of iterations done. *)
Lemma for_loop_invariant {S : Type} (P : nat -> S -> Prop) (body : Z -> S -> S) (step : Z) :
  (forall k i s, P k s -> P (Datatypes.S k) (body i s)) ->
  forall n k i s, P k s -> P (k + n)%nat (for_loop n i step body s).
Proof.
  intros Hbody n.
  induction n as [| n IH]; intros k i s Hs.
  - rewrite Nat.add_0_r. exact Hs.
  - cbn [for_loop]. rewrite <- Nat.add_succ_comm.
    apply IH, Hbody, Hs.
Qed.

(** ** The scene *)

Section SceneProperties.

Context {D : Type} {arith : Arith D} {floating : Floating D}.
Context {G : Type} {random : Random D G}.

Lemma scene_cell_grows (a b : Z) (world : hittable_list D) (g : G) :
  exists added : list (sphere D),
    fst (scene_cell a b world g) = world ++ added /\
    (List.length added <= 1)%nat /\
    Forall small_sphere added.
Proof.
  unfold scene_cell, bind.
  destruct (random_double g) as [choose_mat g1].
  destruct (random_double g1) as [cx g2].
  destruct (random_double g2) as [cz g3].
  destruct (clear_of_metal_sphere _) eqn:Hclear.
  - assert (Hsmall : forall m,
               Forall small_sphere
                 [mksphere (mkvec3 (of_int a + lit 0.9 * cx)%D (lit 0.2)
                                   (of_int b + lit 0.9 * cz)%D) (lit 0.2) m]).
    { intros m. constructor; [| constructor]. split; [exact Hclear | reflexivity]. }
    destruct (choose_mat <? lit 0.8)%D; [| destruct (choose_mat <? lit 0.95)%D].
    + destruct (color_random g3) as [c1 g4].
      destruct (color_random g4) as [c2 g5].
      eexists. split; [reflexivity |]. split; [apply Nat.le_refl | apply Hsmall].
    + destruct (color_random_in (lit 0.5) (of_int 1) g3) as [albedo g4].
      destruct (random_double_in (of_int 0) (lit 0.5) g4) as [fuzz g5].
      eexists. split; [reflexivity |]. split; [apply Nat.le_refl | apply Hsmall].
    + eexists. split; [reflexivity |]. split; [apply Nat.le_refl | apply Hsmall].
  - exists []. split; [symmetry; apply app_nil_r |]. split; [apply Nat.le_0_l | constructor].
Qed.

Lemma grown_step (c : nat) (world0 : hittable_list D) (k : nat) (s s' : hittable_list D * G) :
  grown c world0 k s -> grown c (fst s) 1 s' -> grown c world0 (S k) s'.
Proof.
  intros (l1 & H1 & Hlen1 & Hall1) (l2 & H2 & Hlen2 & Hall2).
  exists (l1 ++ l2). split; [| split].
  - rewrite H2, H1, app_assoc. reflexivity.
  - rewrite length_app. lia.
  - apply Forall_app. split; assumption.
Qed.

Lemma scene_row_grows (a : Z) (s : hittable_list D * G) :
  grown 22 (fst s) 1 (scene_row a s).
Proof.
  unfold scene_row, for_up.
  assert (H : grown 1 (fst s) (0 + Z.to_nat (11 - -11))
                (for_loop (Z.to_nat (11 - -11)) (-11) 1
                   (fun b '(world, g) => scene_cell a b world g) s)).
  { apply for_loop_invariant.
    - intros k b [world g] Hk.
      apply (grown_step 1 (fst s) k (world, g)); [exact Hk |].
      destruct (scene_cell_grows a b world g) as (l & Hl & Hlen & Hall).
      exists l. cbn [fst]. split; [exact Hl |]. split; [lia | exact Hall].
    - exists []. split; [symmetry; apply app_nil_r |]. split; [apply Nat.le_0_l | constructor]. }
  destruct H as (l & Hl & Hlen & Hall).
  exists l. split; [exact Hl |]. split; [| exact Hall].
  change (Z.to_nat (11 - -11)) with 22%nat in Hlen. lia.
Qed.

(** C10.  Whatever the random draws, the scene is the ground sphere, then
    at most 22 * 22 small spheres of radius 0.2 whose centres passed the
    distance test of line 73, then the three large spheres: between 4 and
    488 objects. *)
Theorem random_scene_contents (g : G) :
  exists added : list (sphere D),
    fst (random_scene g) = [ground_sphere] ++ added ++ [sphere1; sphere2; sphere3] /\
    (List.length added <= 484)%nat /\
    Forall (fun s => (length (vsub (center s) (mkvec3 (of_int 4) (lit 0.2) (of_int 0)))
                      >? lit 0.9)%D = true /\ radius s = lit 0.2) added /\
    (4 <= List.length (fst (random_scene g)) <= 488)%nat /\
    ground_sphere =
      mksphere (mkvec3 (of_int 0) (of_int (-1000)) (of_int 0)) (of_int 1000)
               (lambertian (mkvec3 (lit 0.5) (lit 0.5) (lit 0.5))) /\
    sphere1 = mksphere (mkvec3 (of_int 0) (of_int 1) (of_int 0)) (lit 1.0)
                       (dielectric (lit 1.5)) /\
    sphere2 = mksphere (mkvec3 (of_int (-4)) (of_int 1) (of_int 0)) (lit 1.0)
                       (lambertian (mkvec3 (lit 0.4) (lit 0.2) (lit 0.1))) /\
    sphere3 = mksphere (mkvec3 (of_int 4) (of_int 1) (of_int 0)) (lit 1.0)
                       (metal (mkvec3 (lit 0.7) (lit 0.6) (lit 0.5)) (lit 0.0)).
Proof.
  unfold random_scene.
  assert (H : grown 22 (add [] ground_sphere) (0 + Z.to_nat (11 - -11))
                (for_loop (Z.to_nat (11 - -11)) (-11) 1 scene_row
                   (add [] ground_sphere, g))).
  { apply for_loop_invariant.
    - intros k a s Hk.
      apply (grown_step 22 _ k s); [exact Hk | apply scene_row_grows].
    - exists []. split; [symmetry; apply app_nil_r |]. split; [apply Nat.le_0_l | constructor]. }
  unfold for_up.
  destruct (for_loop (Z.to_nat (11 - -11)) (-11) 1 scene_row (add [] ground_sphere, g))
    as [world g'].
  destruct H as (added & Hworld & Hlen & Hall).
  cbn [fst] in Hworld |- *.
  change (Z.to_nat (11 - -11)) with 22%nat in Hlen.
  exists added.
  assert (Heq : add (add (add world sphere1) sphere2) sphere3 =
                [ground_sphere] ++ added ++ [sphere1; sphere2; sphere3]).
  { unfold add in *. rewrite Hworld. cbn [app]. rewrite <- !app_assoc. reflexivity. }
  rewrite Heq.
  split; [reflexivity |].
  split; [lia |].
  split; [exact Hall |].
  split; [| repeat split].
  rewrite !length_app. cbn [List.length]. lia.
Qed.

End SceneProperties.

(** ** The progress tracker *)

Section ProgressProperties.

Context {D : Type} {arith : Arith D}.

(** What [update] does to the estimate and the timer, in any arithmetic. *)
Lemma update_estimate (now now' : D) (thread lineCount : Z) (pr : ThreadSafeProgress D) :
  (thread = 0 ->
     estimatedTime (fst (update now now' thread lineCount pr)) =
       (getElapsedS (timer pr) now * of_int lineCount)%D /\
     timer (fst (update now now' thread lineCount pr)) = reset now') /\
  (thread <> 0 ->
     estimatedTime (fst (update now now' thread lineCount pr)) = estimatedTime pr /\
     timer (fst (update now now' thread lineCount pr)) = timer pr) /\
  minutes (snd (update now now' thread lineCount pr)) =
    (estimatedTime (fst (update now now' thread lineCount pr)) / lit 60.0)%D /\
  remaining (snd (update now now' thread lineCount pr)) =
    assign (linesLeft pr) thread lineCount.
Proof.
  unfold update.
  split; [| split; [| split]].
  - intros ->. cbn. split; reflexivity.
  - intros Hthread. apply Z.eqb_neq in Hthread. rewrite Hthread. cbn. split; reflexivity.
  - reflexivity.
  - destruct (thread =? 0); reflexivity.
Qed.

End ProgressProperties.

(** C8.  In exact arithmetic: [update] recomputes the estimate, as the time
    elapsed since the timer was last reset times the remaining count, and
    resets the timer, when the worker is worker 0; for any other worker it
    leaves both as they were.  The estimate it reports, in minutes, is
    non-negative as long as the remaining count is non-negative, the clock
    has not run backwards since the last reset, and the stored estimate was
    non-negative. *)
Theorem update_eta (now now' : Q) (thread lineCount : Z) (pr : ThreadSafeProgress Q) :
  (thread = 0 ->
     estimatedTime (fst (update now now' thread lineCount pr)) =
       ((now - started (timer pr)) * inject_Z lineCount)%Q /\
     timer (fst (update now now' thread lineCount pr)) = mkTimer now') /\
  (thread <> 0 ->
     estimatedTime (fst (update now now' thread lineCount pr)) = estimatedTime pr /\
     timer (fst (update now now' thread lineCount pr)) = timer pr) /\
  minutes (snd (update now now' thread lineCount pr)) =
    (estimatedTime (fst (update now now' thread lineCount pr)) / 60.0)%Q /\
  (0 <= lineCount ->
   (started (timer pr) <= now)%Q ->
   (0 <= estimatedTime pr)%Q ->
   (0 <= estimatedTime (fst (update now now' thread lineCount pr)))%Q /\
   (0 <= minutes (snd (update now now' thread lineCount pr)))%Q).
Proof.
  destruct (update_estimate now now' thread lineCount pr) as (Hzero & Hother & Hline & _).
  split; [exact Hzero |].
  split; [exact Hother |].
  split; [exact Hline |].
  intros Hcount Hclock Hstored.
  assert (Hnew : (0 <= estimatedTime (fst (update now now' thread lineCount pr)))%Q).
  { destruct (Z.eq_dec thread 0) as [Hthread | Hthread].
    - destruct (Hzero Hthread) as [-> _].
      apply Qmult_le_0_compat.
      + unfold getElapsedS. cbn. lra.
      + change 0%Q with (inject_Z 0). rewrite <- Zle_Qle. exact Hcount.
    - destruct (Hother Hthread) as [-> _]. exact Hstored. }
  split; [exact Hnew |].
  rewrite Hline.
  apply Qle_shift_div_l; [reflexivity | lra].
Qed.

(** Worker 0 reports 30 lines left 2 seconds after the last reset: one
    minute is estimated. *)
Lemma update_eta_one_minute :
  (0 <= estimatedTime (fst (update 12%Q 12.5%Q 0 30 Demo.tracker)))%Q /\
  (0 <= minutes (snd (update 12%Q 12.5%Q 0 30 Demo.tracker)))%Q.
Proof.
  refine (proj2 (proj2 (proj2 (update_eta 12%Q 12.5%Q 0 30 Demo.tracker))) _ _ _).
  - lia.
  - vm_compute. discriminate.
  - vm_compute. discriminate.
Defined.

Example init_two_workers :
  init 2 10%Q (mkProgress [] (mkTimer 0%Q) 0%Q) = mkProgress [0; 0] (mkTimer 10%Q) 0%Q.
Proof. reflexivity. Qed.

Example update_eta_run :
  update 12%Q 12.5%Q 0 30 Demo.tracker =
  (mkProgress [30; 40] (mkTimer 12.5%Q) ((12 - 10) * inject_Z 30)%Q,
   mkstatus [30; 40] ((12 - 10) * inject_Z 30 / 60.0)%Q).
Proof. reflexivity. Qed.

(** ** The render worker *)

Lemma indices_length (n : nat) (i step : Z) : List.length (indices n i step) = n.
Proof.
  revert i. induction n as [| n IH]; intros i; cbn [indices List.length].
  - reflexivity.
  - rewrite IH. reflexivity.
Qed.

Lemma indices_nth (n : nat) (i step : Z) (k : nat) :
  (k < n)%nat -> nth_error (indices n i step) k = Some (i + step * Z.of_nat k).
Proof.
  revert i k. induction n as [| n IH]; intros i k Hk; [lia |].
  destruct k as [| k]; cbn [indices nth_error].
  - f_equal. lia.
  - rewrite IH by lia. f_equal. lia.
Qed.

Lemma indices_in (n : nat) (i step a : Z) :
  In a (indices n i step) ->
  exists k : nat, (k < n)%nat /\ a = i + step * Z.of_nat k.
Proof.
  revert i. induction n as [| n IH]; intros i Hin; [contradiction |].
  cbn [indices] in Hin. destruct Hin as [<- | Hin].
  - exists O. split; lia.
  - destruct (IH _ Hin) as (k & Hk & ->).
    exists (S k). split; lia.
Qed.

Lemma indices_split (q m : nat) (i step : Z) :
  indices (q + S m) i step =
  indices q i step ++ (i + step * Z.of_nat q) :: indices m (i + step * Z.of_nat (S q)) step.
Proof.
  revert i. induction q as [| q IH]; intros i.
  - cbn [Nat.add indices app]. f_equal; [lia | f_equal; lia].
  - cbn [Nat.add indices app]. rewrite IH. f_equal. f_equal.
    f_equal; [lia | f_equal; lia].
Qed.

Lemma list_sum_zero {A : Type} (f : A -> nat) (l : list A) :
  (forall a, In a l -> f a = O) -> list_sum (map f l) = O.
Proof.
  induction l as [| a l IH]; intros Hzero; [reflexivity |].
  change (list_sum (map f (a :: l))) with (f a + list_sum (map f l))%nat.
  rewrite (Hzero a (or_introl eq_refl)), IH; [reflexivity |].
  intros b Hb. apply Hzero. right. exact Hb.
Qed.

(** A function that is [c] at one value of the index and 0 elsewhere sums
    to [c] over the loop. *)
Lemma list_sum_indicator (f : Z -> nat) (c : nat) (step : Z) :
  step <> 0 ->
  forall n i k,
    (k < n)%nat ->
    f (i + step * Z.of_nat k) = c ->
    (forall a, a <> i + step * Z.of_nat k -> f a = O) ->
    list_sum (map f (indices n i step)) = c.
Proof.
  intros Hstep n.
  induction n as [| n IH]; intros i k Hk Hat Helse; [lia |].
  change (list_sum (map f (indices (S n) i step)))
    with (f i + list_sum (map f (indices n (i + step) step)))%nat.
  destruct k as [| k].
  - replace (i + step * Z.of_nat 0) with i in * by lia.
    rewrite Hat, list_sum_zero; [lia |].
    intros a Ha. apply Helse.
    destruct (indices_in _ _ _ _ Ha) as (k & _ & ->). nia.
  - rewrite (Helse i) by nia.
    apply (IH (i + step) k); [lia | |].
    + rewrite <- Hat. f_equal. lia.
    + intros a Ha. apply Helse. lia.
Qed.

(** A counted loop folds its body over the values of its index. *)
Lemma for_loop_fold {S : Type} (body : Z -> S -> S) (n : nat) (i step : Z) (s : S) :
  for_loop n i step body s = fold_left (fun s k => body k s) (indices n i step) s.
Proof.
  revert i s. induction n as [| n IH]; intros i s; cbn [for_loop indices fold_left].
  - reflexivity.
  - apply IH.
Qed.

Lemma nth_error_flat_map_blocks {A B : Type} (f : A -> list B) (c : nat) (l : list A) :
  (forall a, List.length (f a) = c) ->
  forall q r, (r < c)%nat ->
    nth_error (flat_map f l) (q * c + r) =
    match nth_error l q with
    | Some a => nth_error (f a) r
    | None => None
    end.
Proof.
  intros Hlen.
  induction l as [| a l IH]; intros q r Hr.
  - cbn [flat_map]. destruct q, (_ + r)%nat; reflexivity.
  - cbn [flat_map]. destruct q as [| q].
    + cbn [nth_error Nat.mul Nat.add].
      apply nth_error_app1. rewrite Hlen. exact Hr.
    + rewrite nth_error_app2 by (rewrite Hlen; cbn; lia).
      rewrite Hlen.
      replace (S q * c + r - c)%nat with (q * c + r)%nat by (cbn; lia).
      cbn [nth_error]. apply IH. exact Hr.
Qed.

Lemma flat_map_length_blocks {A B : Type} (f : A -> list B) (c : nat) (l : list A) :
  (forall a, List.length (f a) = c) ->
  List.length (flat_map f l) = (List.length l * c)%nat.
Proof.
  intros Hlen. induction l as [| a l IH]; cbn [flat_map List.length].
  - reflexivity.
  - rewrite length_app, Hlen, IH. cbn. reflexivity.
Qed.

Lemma pushes_app {D P : Type} (cs1 cs2 : list (call D P)) :
  pushes (cs1 ++ cs2) = pushes cs1 ++ pushes cs2.
Proof.
  induction cs1 as [| c cs1 IH]; [reflexivity |].
  destruct c; cbn [app pushes]; rewrite IH; reflexivity.
Qed.

Lemma pushes_outline {D P : Type} (cs : list (call D P)) :
  map fst (pushes cs) = map fst (pushes (map outline cs)).
Proof.
  induction cs as [| c cs IH]; [reflexivity |].
  destruct c; cbn [map outline pushes fst]; rewrite ?IH; reflexivity.
Qed.

Lemma samples_at_outline {D P : Type} (i j : Z) (cs : list (call D P)) :
  samples_at i j cs = samples_at i j (map outline cs).
Proof.
  unfold samples_at.
  induction cs as [| c cs IH]; [reflexivity |].
  destruct c; cbn [map outline filter is_sample]; try exact IH.
  destruct ((_ =? i) && (_ =? j)); cbn [List.length]; rewrite IH; reflexivity.
Qed.

Lemma samples_at_app {D P : Type} (i j : Z) (cs1 cs2 : list (call D P)) :
  samples_at i j (cs1 ++ cs2) = (samples_at i j cs1 + samples_at i j cs2)%nat.
Proof.
  unfold samples_at. rewrite filter_app, length_app. reflexivity.
Qed.

Section RenderProperties.

Context {D : Type} {arith : Arith D} {floating : Floating D}.
Context {G C P : Type} {random : Random D G}.
Context {mat : Material D G (material D)}.
Context {hittable : Hittable D (material D) (hittable_list D)}.
Context {camera : Camera D G C} {tonemap : ToneMap D P}.

Variable cfg : config D.
Variable cam : C.

Lemma extends_nil (w : worker D G P) : extends [] w w.
Proof.
  exists []. cbn. rewrite !app_nil_r. repeat split.
Qed.

Lemma extends_app (o1 o2 : list (call unit unit)) (w w1 w2 : worker D G P) :
  extends o1 w w1 -> extends o2 w1 w2 -> extends (o1 ++ o2) w w2.
Proof.
  intros (cs1 & Hc1 & Hp1 & Ho1) (cs2 & Hc2 & Hp2 & Ho2).
  exists (cs1 ++ cs2). split; [| split].
  - rewrite Hc2, Hc1, app_assoc. reflexivity.
  - rewrite Hp2, Hp1, pushes_app, map_app, app_assoc. reflexivity.
  - rewrite map_app, Ho1, Ho2. reflexivity.
Qed.

Lemma for_loop_extends {S : Type} (proj : S -> worker D G P)
      (o : Z -> list (call unit unit)) (body : Z -> S -> S) (step : Z) :
  (forall i s, extends (o i) (proj s) (proj (body i s))) ->
  forall n i s,
    extends (flat_map o (indices n i step)) (proj s) (proj (for_loop n i step body s)).
Proof.
  intros Hbody n.
  induction n as [| n IH]; intros i s; cbn [for_loop indices flat_map].
  - apply extends_nil.
  - eapply extends_app; [apply Hbody | apply IH].
Qed.

Lemma sample_extends (world : hittable_list D) (i j : Z) (s : color D * worker D G P) :
  extends [GetRay i j tt tt] (snd s) (snd (sample cfg cam world i j s)).
Proof.
  destruct s as [pixel_color w]. unfold sample. cbn [snd].
  destruct (random_double (gen w)) as [r1 g1].
  destruct (random_double g1) as [r2 g2].
  destruct (get_ray cam (pixel_u cfg i r1) (pixel_v cfg j r2) g2) as [r g3].
  destruct (ray_color r world (max_depth cfg) g3) as [c g4].
  cbn [snd].
  exists [GetRay i j (pixel_u cfg i r1) (pixel_v cfg j r2)].
  cbn. rewrite app_nil_r. repeat split.
Qed.

(** The coordinates handed to the camera are [pixel_u] and [pixel_v] of two
    successive draws. *)
Lemma sample_call (world : hittable_list D) (i j : Z) (pixel_color : color D)
      (w : worker D G P) :
  calls (snd (sample cfg cam world i j (pixel_color, w))) =
  calls w ++
  [GetRay i j
     (pixel_u cfg i (fst (random_double (gen w))))
     (pixel_v cfg j (fst (random_double (snd (random_double (gen w))))))].
Proof.
  unfold sample.
  destruct (random_double (gen w)) as [r1 g1]. cbn [fst snd].
  destruct (random_double g1) as [r2 g2]. cbn [fst].
  destruct (get_ray cam (pixel_u cfg i r1) (pixel_v cfg j r2) g2) as [r g3].
  destruct (ray_color r world (max_depth cfg) g3) as [c g4].
  reflexivity.
Qed.

Lemma flat_map_constant {A B : Type} (b : B) (l : list A) :
  flat_map (fun _ => [b]) l = repeat b (List.length l).
Proof.
  induction l as [| a l IH]; cbn [flat_map List.length repeat app].
  - reflexivity.
  - rewrite IH. reflexivity.
Qed.

Lemma render_pixel_extends (world : hittable_list D) (j i : Z) (w : worker D G P) :
  extends (pixel_outline cfg i j) w (render_pixel cfg cam world j i w).
Proof.
  unfold render_pixel, for_up, pixel_outline.
  pose proof (for_loop_extends snd (fun _ => [GetRay i j tt tt])
                (fun _ => sample cfg cam world i j) 1
                (fun _ s => sample_extends world i j s)
                (Z.to_nat (samples_per_pixel cfg - 0)) 0
                (mkvec3 (of_int 0) (of_int 0) (of_int 0), w)) as Hloop.
  rewrite flat_map_constant, indices_length in Hloop.
  rewrite Z.sub_0_r in Hloop |- *.
  cbn [snd] in Hloop.
  destruct (for_loop _ _ _ _ _) as [pixel_color w1].
  cbn [snd] in Hloop.
  eapply extends_app; [exact Hloop |].
  exists [PushPixel i j (get_color pixel_color (samples_per_pixel cfg))].
  cbn. repeat split.
Qed.

Lemma render_row_extends (world : hittable_list D) (thread j : Z) (w : worker D G P) :
  extends (row_outline cfg thread j) w (render_row cfg cam world thread j w).
Proof.
  unfold render_row, for_up, row_outline, row_pixels_outline, columns.
  rewrite Z.sub_0_r.
  change (Update thread j :: ?l) with ([Update thread j] ++ l).
  apply (extends_app _ _ w (mkworker (gen w) (image w) (calls w ++ [Update thread j]))).
  - exists [Update thread j]. cbn. rewrite app_nil_r. repeat split.
  - apply (for_loop_extends (fun w => w) (fun i => pixel_outline cfg i j)).
    intros i s. apply render_pixel_extends.
Qed.

(** The calls of a worker: row by row from [image_height - 1] down, one
    [update], then for each column the rays of the pixel and its push. *)
Lemma renderImage_extends (world : hittable_list D) (thread : Z) (w : worker D G P) :
  extends (image_outline cfg thread) w (renderImage cfg cam world thread w).
Proof.
  unfold renderImage, for_down, image_outline, rows.
  replace (image_height cfg - 1 - 0 + 1) with (image_height cfg) by lia.
  apply (for_loop_extends (fun w => w) (row_outline cfg thread)).
  intros j s. apply render_row_extends.
Qed.

Lemma pushes_flat_map {A : Type} (f : A -> list (call unit unit)) (l : list A) :
  map fst (pushes (flat_map f l)) = flat_map (fun a => map fst (pushes (f a))) l.
Proof.
  induction l as [| a l IH]; [reflexivity |].
  cbn [flat_map]. rewrite pushes_app, map_app, IH. reflexivity.
Qed.

Lemma pushes_pixel_outline (i j : Z) :
  map fst (pushes (pixel_outline cfg i j)) = [(i, j)].
Proof.
  unfold pixel_outline. rewrite pushes_app, map_app.
  induction (Z.to_nat (samples_per_pixel cfg)) as [| n IH]; [reflexivity | exact IH].
Qed.

Lemma pushes_image_outline (thread : Z) :
  map fst (pushes (image_outline cfg thread)) = visiting_order cfg.
Proof.
  unfold image_outline, visiting_order.
  rewrite pushes_flat_map.
  apply flat_map_ext. intros j.
  unfold row_outline, row_pixels_outline. cbn [pushes].
  rewrite pushes_flat_map.
  induction (columns cfg) as [| i l IH]; [reflexivity |].
  cbn [flat_map map]. rewrite pushes_pixel_outline, IH. reflexivity.
Qed.

Lemma visiting_order_length :
  List.length (visiting_order cfg) =
  (Z.to_nat (image_width cfg) * Z.to_nat (image_height cfg))%nat.
Proof.
  unfold visiting_order.
  rewrite (flat_map_length_blocks _ (Z.to_nat (image_width cfg))).
  - unfold rows. rewrite indices_length. apply Nat.mul_comm.
  - intros j. rewrite length_map. apply indices_length.
Qed.

Lemma visiting_order_nth (q r : nat) :
  (q < Z.to_nat (image_height cfg))%nat ->
  (r < Z.to_nat (image_width cfg))%nat ->
  nth_error (visiting_order cfg) (q * Z.to_nat (image_width cfg) + r) =
  Some (Z.of_nat r, image_height cfg - 1 - Z.of_nat q).
Proof.
  intros Hq Hr. unfold visiting_order.
  rewrite (nth_error_flat_map_blocks _ (Z.to_nat (image_width cfg))); [| | exact Hr].
  - unfold rows. rewrite (indices_nth _ _ _ q Hq).
    rewrite nth_error_map. unfold columns. rewrite (indices_nth _ _ _ r Hr).
    cbn [option_map]. do 2 f_equal; lia.
  - intros j. rewrite length_map. apply indices_length.
Qed.

(** C5, amended.  A run of [renderImage] appends to the worker's image
    exactly the pixels it pushes, image_width * image_height of them, one
    for each position, in the order the loops visit the positions: the
    pixel of rank q * image_width + r is that of column i = r in the row of
    index j = image_height - 1 - q.  The row of index image_height - 1 is
    appended first and the row of index 0 last; within a row the columns
    run from 0 to image_width - 1. *)
Theorem renderImage_push_order (world : hittable_list D) (thread : Z) (w : worker D G P) :
  exists cs : list (call D P),
    calls (renderImage cfg cam world thread w) = calls w ++ cs /\
    pixels (image (renderImage cfg cam world thread w)) =
      pixels (image w) ++ map snd (pushes cs) /\
    map fst (pushes cs) = visiting_order cfg /\
    List.length (pushes cs) =
      (Z.to_nat (image_width cfg) * Z.to_nat (image_height cfg))%nat /\
    (forall q r : nat,
        (q < Z.to_nat (image_height cfg))%nat ->
        (r < Z.to_nat (image_width cfg))%nat ->
        nth_error (map fst (pushes cs)) (q * Z.to_nat (image_width cfg) + r) =
        Some (Z.of_nat r, image_height cfg - 1 - Z.of_nat q)).
Proof.
  destruct (renderImage_extends world thread w) as (cs & Hcalls & Hpixels & Houtline).
  assert (Horder : map fst (pushes cs) = visiting_order cfg).
  { rewrite pushes_outline, Houtline. apply pushes_image_outline. }
  exists cs.
  split; [exact Hcalls |].
  split; [exact Hpixels |].
  split; [exact Horder |].
  split.
  - rewrite <- (length_map fst), Horder. apply visiting_order_length.
  - intros q r Hq Hr. rewrite Horder. apply visiting_order_nth; assumption.
Qed.

Lemma outline_update (c : call D P) (thread j : Z) :
  outline c = Update thread j -> c = Update thread j.
Proof.
  destruct c; cbn [outline]; intros Heq; inversion Heq; reflexivity.
Qed.

Lemma row_outline_on_row (c : call D P) (thread j j' : Z) :
  In (outline c) (row_outline cfg thread j') -> on_row j c -> j' = j.
Proof.
  unfold row_outline, row_pixels_outline, pixel_outline.
  intros [Hupdate | Hpixel] Hrow.
  - destruct c; cbn [outline] in Hupdate; inversion Hupdate; contradiction.
  - apply in_flat_map in Hpixel. destruct Hpixel as (i & _ & Hin).
    apply in_app_or in Hin. destruct Hin as [Hin | [Hin | []]].
    + apply repeat_spec in Hin.
      destruct c; cbn [outline] in Hin; inversion Hin; subst; exact Hrow.
    + destruct c; cbn [outline] in Hin; inversion Hin; subst; exact Hrow.
Qed.

(** C7, amended.  The call [update(threadIndex, j)] opens row j: what the
    worker did before it is the whole of rows image_height-1 down to j+1 and
    nothing on row j; every ray and every push of row j comes after it, and
    then the rows below. *)
Theorem update_opens_row (world : hittable_list D) (thread : Z) (w : worker D G P) (q : nat) :
  (q < Z.to_nat (image_height cfg))%nat ->
  let j := image_height cfg - 1 - Z.of_nat q in
  exists before after : list (call D P),
    calls (renderImage cfg cam world thread w) =
      calls w ++ before ++ Update thread j :: after /\
    map outline before =
      flat_map (row_outline cfg thread) (indices q (image_height cfg - 1) (-1)) /\
    map outline after =
      row_pixels_outline cfg j ++
      flat_map (row_outline cfg thread)
               (indices (Z.to_nat (image_height cfg) - S q) (j - 1) (-1)) /\
    Forall (fun c => ~ on_row j c) before.
Proof.
  intros Hq j.
  destruct (renderImage_extends world thread w) as (cs & Hcalls & _ & Houtline).
  unfold image_outline, rows in Houtline.
  replace (Z.to_nat (image_height cfg))
    with (q + S (Z.to_nat (image_height cfg) - S q))%nat in Houtline at 1 by lia.
  rewrite indices_split, flat_map_app in Houtline.
  cbn [flat_map] in Houtline.
  replace (image_height cfg - 1 + -1 * Z.of_nat q) with j in Houtline by (unfold j; lia).
  replace (image_height cfg - 1 + -1 * Z.of_nat (S q)) with (j - 1) in Houtline
    by (unfold j; lia).
  apply map_eq_app in Houtline.
  destruct Houtline as (before & rest & -> & Hbefore & Hrest).
  unfold row_outline at 1 in Hrest. rewrite <- app_comm_cons in Hrest.
  apply map_eq_cons in Hrest.
  destruct Hrest as (c & after & -> & Hc & Hafter).
  apply outline_update in Hc. subst c.
  exists before, after.
  split; [exact Hcalls |].
  split; [exact Hbefore |].
  split; [exact Hafter |].
  apply Forall_forall. intros c Hin Hrow.
  assert (Hin' : In (outline c) (map outline before)) by (apply in_map; exact Hin).
  rewrite Hbefore in Hin'.
  apply in_flat_map in Hin'. destruct Hin' as (j' & Hj' & Hc).
  apply indices_in in Hj'. destruct Hj' as (k & Hk & ->).
  pose proof (row_outline_on_row c thread j _ Hc Hrow) as Heq.
  unfold j in Heq. lia.
Qed.

Lemma samples_at_flat_map {A : Type} (i j : Z) (f : A -> list (call unit unit)) (l : list A) :
  samples_at i j (flat_map f l) = list_sum (map (fun a => samples_at i j (f a)) l).
Proof.
  induction l as [| a l IH]; [reflexivity |].
  cbn [flat_map]. rewrite samples_at_app, IH. reflexivity.
Qed.

Lemma samples_at_pixel_outline (i j i' j' : Z) :
  samples_at i j (pixel_outline cfg i' j') =
  if (i' =? i) && (j' =? j) then Z.to_nat (samples_per_pixel cfg) else O.
Proof.
  unfold pixel_outline. rewrite samples_at_app.
  change (samples_at i j [PushPixel i' j' tt]) with O. rewrite Nat.add_0_r.
  unfold samples_at.
  induction (Z.to_nat (samples_per_pixel cfg)) as [| n IH].
  - destruct ((i' =? i) && (j' =? j)); reflexivity.
  - cbn [repeat filter is_sample].
    destruct ((i' =? i) && (j' =? j)) eqn:Hmatch; cbn [List.length]; rewrite IH; reflexivity.
Qed.

Lemma samples_at_row_outline (thread j' : Z) (q r : nat) :
  (r < Z.to_nat (image_width cfg))%nat ->
  samples_at (Z.of_nat r) (image_height cfg - 1 - Z.of_nat q) (row_outline cfg thread j') =
  if j' =? image_height cfg - 1 - Z.of_nat q then Z.to_nat (samples_per_pixel cfg) else O.
Proof.
  intros Hr. unfold row_outline.
  change (Update thread j' :: ?l) with ([Update thread j'] ++ l).
  rewrite samples_at_app.
  change (samples_at _ _ [Update thread j']) with O. cbn [Nat.add].
  unfold row_pixels_outline, columns. rewrite samples_at_flat_map.
  destruct (j' =? image_height cfg - 1 - Z.of_nat q) eqn:Hrow.
  - apply (list_sum_indicator _ _ 1 ltac:(lia) _ 0 r Hr).
    + rewrite samples_at_pixel_outline, Hrow.
      replace (0 + 1 * Z.of_nat r =? Z.of_nat r) with true by (symmetry; apply Z.eqb_eq; lia).
      reflexivity.
    + intros a Ha. rewrite samples_at_pixel_outline.
      replace (a =? Z.of_nat r) with false by (symmetry; apply Z.eqb_neq; lia).
      reflexivity.
  - apply list_sum_zero. intros a _.
    rewrite samples_at_pixel_outline, Hrow, andb_false_r. reflexivity.
Qed.

(** One turn of the sample loop adds the colour of one sample to
    [pixel_color] and leaves the image alone. *)
Lemma sample_accumulates (world : hittable_list D) (i j : Z) (s : color D * worker D G P) :
  fst (sample cfg cam world i j s) =
    vadd (fst s) (fst (sample_color cfg cam world i j (gen (snd s)))) /\
  gen (snd (sample cfg cam world i j s)) =
    snd (sample_color cfg cam world i j (gen (snd s))) /\
  image (snd (sample cfg cam world i j s)) = image (snd s).
Proof.
  destruct s as [pixel_color w]. unfold sample, sample_color, bind. cbn [fst snd].
  destruct (random_double (gen w)) as [r1 g1].
  destruct (random_double g1) as [r2 g2].
  destruct (get_ray cam (pixel_u cfg i r1) (pixel_v cfg j r2) g2) as [r g3].
  destruct (ray_color r world (max_depth cfg) g3) as [c g4].
  repeat split.
Qed.

Lemma sample_loop_accumulates (world : hittable_list D) (i j : Z) :
  forall (n : nat) (k : Z) (s : color D * worker D G P),
    fst (for_loop n k 1 (fun _ => sample cfg cam world i j) s) =
      fold_left vadd (fst (sample_colors cfg cam world i j n (gen (snd s)))) (fst s) /\
    gen (snd (for_loop n k 1 (fun _ => sample cfg cam world i j) s)) =
      snd (sample_colors cfg cam world i j n (gen (snd s))) /\
    image (snd (for_loop n k 1 (fun _ => sample cfg cam world i j) s)) = image (snd s).
Proof.
  induction n as [| n IH]; intros k s; cbn [for_loop sample_colors].
  - repeat split.
  - destruct (sample_accumulates world i j s) as (Hcolor & Hgen & Himage).
    destruct (IH (k + 1) (sample cfg cam world i j s)) as (IHcolor & IHgen & IHimage).
    rewrite IHcolor, IHgen, IHimage, Hcolor, Hgen, Himage.
    unfold bind, ret.
    destruct (sample_color cfg cam world i j (gen (snd s))) as [c g1]. cbn [fst snd].
    destruct (sample_colors cfg cam world i j n g1) as [cs g2]. cbn [fst snd fold_left].
    repeat split.
Qed.

Lemma sample_colors_length (world : hittable_list D) (i j : Z) :
  forall (n : nat) (g : G),
    List.length (fst (sample_colors cfg cam world i j n g)) = n.
Proof.
  induction n as [| n IH]; intros g; cbn [sample_colors]; [reflexivity |].
  unfold bind, ret.
  destruct (sample_color cfg cam world i j g) as [c g1].
  specialize (IH g1).
  destruct (sample_colors cfg cam world i j n g1) as [cs g2].
  cbn [fst List.length] in IH |- *. rewrite IH. reflexivity.
Qed.

Lemma renders_nil (world : hittable_list D) (w : worker D G P) :
  renders cfg cam world [] w w.
Proof.
  unfold renders. cbn. rewrite app_nil_r. split; reflexivity.
Qed.

Lemma pixel_values_app (world : hittable_list D) (l1 l2 : list (Z * Z)) (g : G) :
  pixel_values cfg cam world (l1 ++ l2) g =
  (fst (pixel_values cfg cam world l1 g) ++
   fst (pixel_values cfg cam world l2 (snd (pixel_values cfg cam world l1 g))),
   snd (pixel_values cfg cam world l2 (snd (pixel_values cfg cam world l1 g)))).
Proof.
  revert g. induction l1 as [| position l1 IH]; intros g.
  - cbn. destruct (pixel_values cfg cam world l2 g). reflexivity.
  - cbn [app pixel_values]. unfold bind, ret.
    destruct (pixel_value cfg cam world position g) as [pixel g1].
    rewrite IH.
    destruct (pixel_values cfg cam world l1 g1) as [others g2]. cbn [fst snd].
    reflexivity.
Qed.

Lemma renders_app (world : hittable_list D) (l1 l2 : list (Z * Z)) (w w1 w2 : worker D G P) :
  renders cfg cam world l1 w w1 -> renders cfg cam world l2 w1 w2 ->
  renders cfg cam world (l1 ++ l2) w w2.
Proof.
  unfold renders. intros [Hp1 Hg1] [Hp2 Hg2].
  rewrite pixel_values_app. cbn [fst snd].
  rewrite Hp2, Hg2, Hp1, Hg1, app_assoc. split; reflexivity.
Qed.

Lemma for_loop_renders (world : hittable_list D) (block : Z -> list (Z * Z))
      (body : Z -> worker D G P -> worker D G P) (step : Z) :
  (forall k w, renders cfg cam world (block k) w (body k w)) ->
  forall n i w,
    renders cfg cam world (flat_map block (indices n i step)) w (for_loop n i step body w).
Proof.
  intros Hbody n.
  induction n as [| n IH]; intros i w; cbn [for_loop indices flat_map].
  - apply renders_nil.
  - apply (renders_app world _ _ w (body i w)); [apply Hbody | apply IH].
Qed.

(** A pixel is [get_color] of the sum of its samples. *)
Lemma render_pixel_renders (world : hittable_list D) (j i : Z) (w : worker D G P) :
  renders cfg cam world [(i, j)] w (render_pixel cfg cam world j i w).
Proof.
  unfold renders, render_pixel, for_up.
  destruct (sample_loop_accumulates world i j (Z.to_nat (samples_per_pixel cfg - 0)) 0
              (mkvec3 (of_int 0) (of_int 0) (of_int 0), w))
    as (Hcolor & Hgen & Himage).
  destruct (for_loop _ _ _ _ _) as [pixel_color w1].
  cbn [fst snd] in Hcolor, Hgen, Himage.
  cbn [pixel_values pixel_value]. unfold bind, ret.
  rewrite Z.sub_0_r in Hcolor, Hgen.
  change (Z.quot (samples_per_pixel_total cfg) (threadCount cfg))
    with (samples_per_pixel cfg).
  destruct (sample_colors cfg cam world i j (Z.to_nat (samples_per_pixel cfg)) (gen w))
    as [cs g1].
  cbn [fst snd gen image pixels pushPixel] in Hcolor, Hgen |- *.
  rewrite Himage, Hcolor, Hgen. split; reflexivity.
Qed.

Lemma flat_map_singleton {A B : Type} (f : A -> B) (l : list A) :
  flat_map (fun a => [f a]) l = map f l.
Proof.
  induction l as [| a l IH]; [reflexivity |].
  cbn [flat_map map app]. rewrite IH. reflexivity.
Qed.

Lemma render_row_renders (world : hittable_list D) (thread j : Z) (w : worker D G P) :
  renders cfg cam world (map (fun i => (i, j)) (columns cfg)) w
          (render_row cfg cam world thread j w).
Proof.
  unfold render_row, for_up, columns. rewrite Z.sub_0_r.
  rewrite <- flat_map_singleton.
  exact (for_loop_renders world (fun i => [(i, j)]) (render_pixel cfg cam world j) 1
           (fun i w' => render_pixel_renders world j i w')
           (Z.to_nat (image_width cfg)) 0
           (mkworker (gen w) (image w) (calls w ++ [Update thread j]))).
Qed.

(** The image a worker leaves behind: the pixels at the positions the loops
    visit, each the sum of its samples. *)
Lemma renderImage_renders (world : hittable_list D) (thread : Z) (w : worker D G P) :
  renders cfg cam world (visiting_order cfg) w (renderImage cfg cam world thread w).
Proof.
  unfold renderImage, for_down, visiting_order, rows.
  replace (image_height cfg - 1 - 0 + 1) with (image_height cfg) by lia.
  apply (for_loop_renders world (fun j => map (fun i => (i, j)) (columns cfg))).
  intros j w'. apply render_row_renders.
Qed.

(** C9.  A worker accumulates exactly samples_per_pixel samples for every
    pixel, where samples_per_pixel is the quotient samples_per_pixel_total /
    threadCount truncated toward zero; the threadCount workers together
    take threadCount * samples_per_pixel samples per pixel, which is the
    total less the remainder of the division: when the division is not
    exact the remainder is dropped.  For each pixel the worker casts that
    many rays, and the pixel it appends to its image is [get_color] of the
    sum of that many colours, each the [ray_color] of one of these rays. *)
Theorem samples_per_pixel_truncated (world : hittable_list D) (thread : Z) (w : worker D G P) :
  samples_per_pixel cfg = Z.quot (samples_per_pixel_total cfg) (threadCount cfg) /\
  threadCount cfg * samples_per_pixel cfg =
    samples_per_pixel_total cfg - Z.rem (samples_per_pixel_total cfg) (threadCount cfg) /\
  (0 <= samples_per_pixel_total cfg -> 0 < threadCount cfg ->
     0 <= Z.rem (samples_per_pixel_total cfg) (threadCount cfg) < threadCount cfg /\
     (Z.rem (samples_per_pixel_total cfg) (threadCount cfg) <> 0 ->
      threadCount cfg * samples_per_pixel cfg < samples_per_pixel_total cfg)) /\
  (exists cs : list (call D P),
    calls (renderImage cfg cam world thread w) = calls w ++ cs /\
    forall q r : nat,
      (q < Z.to_nat (image_height cfg))%nat ->
      (r < Z.to_nat (image_width cfg))%nat ->
      samples_at (Z.of_nat r) (image_height cfg - 1 - Z.of_nat q) cs =
      Z.to_nat (samples_per_pixel cfg)) /\
  pixels (image (renderImage cfg cam world thread w)) =
    pixels (image w) ++ fst (pixel_values cfg cam world (visiting_order cfg) (gen w)) /\
  gen (renderImage cfg cam world thread w) =
    snd (pixel_values cfg cam world (visiting_order cfg) (gen w)) /\
  (forall (i j : Z) (g : G),
      fst (pixel_value cfg cam world (i, j) g) =
        get_color
          (fold_left vadd
             (fst (sample_colors cfg cam world i j (Z.to_nat (samples_per_pixel cfg)) g))
             (mkvec3 (of_int 0) (of_int 0) (of_int 0)))
          (samples_per_pixel cfg) /\
      List.length
        (fst (sample_colors cfg cam world i j (Z.to_nat (samples_per_pixel cfg)) g)) =
      Z.to_nat (samples_per_pixel cfg)).
Proof.
  assert (Hdiv : threadCount cfg * samples_per_pixel cfg =
                 samples_per_pixel_total cfg -
                 Z.rem (samples_per_pixel_total cfg) (threadCount cfg)).
  { unfold samples_per_pixel.
    pose proof (Z.quot_rem' (samples_per_pixel_total cfg) (threadCount cfg)). lia. }
  split; [reflexivity |].
  split; [exact Hdiv |].
  split; [| split; [| split; [| split]]].
  - intros Htotal Hthreads.
    pose proof (Z.rem_bound_pos (samples_per_pixel_total cfg) (threadCount cfg)
                  Htotal Hthreads) as Hrem.
    split; [exact Hrem | lia].
  - destruct (renderImage_extends world thread w) as (cs & Hcalls & _ & Houtline).
    exists cs. split; [exact Hcalls |].
    intros q r Hq Hr.
    rewrite samples_at_outline, Houtline.
    unfold image_outline, rows. rewrite samples_at_flat_map.
    apply (list_sum_indicator _ _ (-1) ltac:(lia) _ (image_height cfg - 1) q Hq).
    + rewrite (samples_at_row_outline _ _ q r Hr).
      replace (image_height cfg - 1 + -1 * Z.of_nat q =? image_height cfg - 1 - Z.of_nat q)
        with true by (symmetry; apply Z.eqb_eq; lia).
      reflexivity.
    + intros a Ha. rewrite (samples_at_row_outline _ _ q r Hr).
      replace (a =? image_height cfg - 1 - Z.of_nat q)
        with false by (symmetry; apply Z.eqb_neq; lia).
      reflexivity.
  - apply (renderImage_renders world thread w).
  - apply (renderImage_renders world thread w).
  - intros i j g. split.
    + cbn [pixel_value]. unfold bind, ret, sum_of_colors.
      change (Z.quot (samples_per_pixel_total cfg) (threadCount cfg))
        with (samples_per_pixel cfg).
      destruct (sample_colors cfg cam world i j (Z.to_nat (samples_per_pixel cfg)) g).
      reflexivity.
    + apply sample_colors_length.
Qed.

End RenderProperties.

(** ** The image coordinates *)

(** The bounds are closed: they are the ones that rounding to the nearest
    binary64 value, which is monotone and leaves 0, 1 and the integers in
    play unchanged, cannot break.  The jitter ranges over [0, 1], which
    covers the draws of [random_double], in [0, 1), and the case where the
    sum [i + jitter] is rounded up to [i + 1]. *)
Lemma coordinate_bounds (n k : Z) (r : Q) :
  1 < n -> 0 <= k < n -> (0 <= r <= 1)%Q ->
  (0 <= (inject_Z k + r) / inject_Z (n - 1))%Q /\
  ((inject_Z k + r) / inject_Z (n - 1) <= inject_Z n / inject_Z (n - 1))%Q /\
  (k < n - 1 -> ((inject_Z k + r) / inject_Z (n - 1) <= 1)%Q) /\
  (k = n - 1 -> (1 <= (inject_Z k + r) / inject_Z (n - 1))%Q).
Proof.
  intros Hn Hk Hr.
  assert (Hw : (0 < inject_Z (n - 1))%Q).
  { change 0%Q with (inject_Z 0). rewrite <- Zlt_Qlt. lia. }
  assert (Hk0 : (0 <= inject_Z k)%Q).
  { change 0%Q with (inject_Z 0). rewrite <- Zle_Qle. lia. }
  assert (Hkw : (inject_Z k <= inject_Z (n - 1))%Q).
  { rewrite <- Zle_Qle. lia. }
  assert (Hnw : (inject_Z n == inject_Z (n - 1) + 1)%Q).
  { change 1%Q with (inject_Z 1). rewrite <- inject_Z_plus.
    replace (n - 1 + 1) with n by lia. reflexivity. }
  split; [| split; [| split]].
  - apply Qle_shift_div_l; [exact Hw | lra].
  - unfold Qdiv. apply Qmult_le_compat_r.
    + rewrite Hnw. lra.
    + apply Qlt_le_weak, Qinv_lt_0_compat. exact Hw.
  - intros Hlast.
    assert (Hk1 : (inject_Z k + 1 <= inject_Z (n - 1))%Q).
    { change 1%Q with (inject_Z 1). rewrite <- inject_Z_plus, <- Zle_Qle. lia. }
    apply Qle_shift_div_r; [exact Hw | lra].
  - intros ->.
    apply Qle_shift_div_l; [exact Hw | lra].
Qed.

(** C6, amended.  For a pixel position inside the image and jitters in
    [0, 1], u lies in [0, image_width / (image_width - 1)] and v in
    [0, image_height / (image_height - 1)].  They are at most 1 in every
    column but the one of index image_width - 1 and in every row but the one
    of index image_height - 1, where they are at least 1.  Stated over the
    rationals, with the closed bounds of [coordinate_bounds]. *)
Theorem pixel_coordinates_range (cfg : config Q) (i j : Z) (jitter_u jitter_v : Q) :
  1 < image_width cfg -> 1 < image_height cfg ->
  0 <= i < image_width cfg -> 0 <= j < image_height cfg ->
  (0 <= jitter_u <= 1)%Q -> (0 <= jitter_v <= 1)%Q ->
  (0 <= pixel_u cfg i jitter_u)%Q /\
  (pixel_u cfg i jitter_u <= inject_Z (image_width cfg) / inject_Z (image_width cfg - 1))%Q /\
  (0 <= pixel_v cfg j jitter_v)%Q /\
  (pixel_v cfg j jitter_v <= inject_Z (image_height cfg) / inject_Z (image_height cfg - 1))%Q /\
  (i < image_width cfg - 1 -> (pixel_u cfg i jitter_u <= 1)%Q) /\
  (j < image_height cfg - 1 -> (pixel_v cfg j jitter_v <= 1)%Q) /\
  (i = image_width cfg - 1 -> (1 <= pixel_u cfg i jitter_u)%Q) /\
  (j = image_height cfg - 1 -> (1 <= pixel_v cfg j jitter_v)%Q).
Proof.
  intros Hwidth Hheight Hi Hj Hu Hv.
  destruct (coordinate_bounds (image_width cfg) i jitter_u Hwidth Hi Hu)
    as (Hu0 & Hu1 & Hu2 & Hu3).
  destruct (coordinate_bounds (image_height cfg) j jitter_v Hheight Hj Hv)
    as (Hv0 & Hv1 & Hv2 & Hv3).
  unfold pixel_u, pixel_v. cbn [ddiv dadd of_int exact].
  repeat split; assumption.
Qed.

(** The last column but one and the last column of the image of [main.cpp],
    with the jitter 0.75 for u and 0.25 for v. *)
Lemma pixel_coordinates_last_columns :
  (0 <= pixel_u (D := Q) main_config 598 0.75 /\
   pixel_u (D := Q) main_config 598 0.75 <= 1 /\
   0 <= pixel_v (D := Q) main_config 100 0.25 /\
   pixel_v (D := Q) main_config 100 0.25 <= 1 /\
   1 <= pixel_u (D := Q) main_config 599 0.75 /\
   pixel_u (D := Q) main_config 599 0.75 <= inject_Z 600 / inject_Z 599)%Q.
Proof.
  assert (Hwidth : 1 < image_width (D := Q) main_config) by (vm_compute; reflexivity).
  assert (Hheight : 1 < image_height (D := Q) main_config) by (vm_compute; reflexivity).
  assert (Hi : 0 <= 598 < image_width (D := Q) main_config)
    by (split; vm_compute; [discriminate | reflexivity]).
  assert (Hi' : 0 <= 599 < image_width (D := Q) main_config)
    by (split; vm_compute; [discriminate | reflexivity]).
  assert (Hj : 0 <= 100 < image_height (D := Q) main_config)
    by (split; vm_compute; [discriminate | reflexivity]).
  assert (Hu : (0 <= 0.75 <= 1)%Q) by (split; vm_compute; discriminate).
  assert (Hv : (0 <= 0.25 <= 1)%Q) by (split; vm_compute; discriminate).
  destruct (pixel_coordinates_range main_config 598 100 0.75%Q 0.25%Q
              Hwidth Hheight Hi Hj Hu Hv)
    as (Hu0 & _ & Hv0 & _ & Hu1 & Hv1 & _).
  destruct (pixel_coordinates_range main_config 599 100 0.75%Q 0.25%Q
              Hwidth Hheight Hi' Hj Hu Hv)
    as (_ & Hu2 & _ & _ & _ & _ & Hu3 & _).
  split; [exact Hu0 |].
  split; [apply Hu1; vm_compute; reflexivity |].
  split; [exact Hv0 |].
  split; [apply Hv1; vm_compute; reflexivity |].
  split; [apply Hu3; vm_compute; reflexivity |].
  exact Hu2.
Defined.

(** In binary64 the closed bounds are reached: with the largest jitter
    below 1, the sum [i + jitter] is rounded to [i + 1], so u is exactly 1
    in column 598 and exactly 600 / 599 in column 599, and v is exactly 1 in
    row 335 and exactly 337 / 336 in row 336. *)
Example pixel_coordinates_largest_jitter :
  let jitter := next_down (of_int 1) in
  (jitter <? of_int 1)%D = true /\
  pixel_u (D := float) main_config 598 jitter = of_int 1 /\
  pixel_v (D := float) main_config 335 jitter = of_int 1 /\
  pixel_u (D := float) main_config 599 jitter = (of_int 600 / of_int 599)%D /\
  pixel_v (D := float) main_config 336 jitter = (of_int 337 / of_int 336)%D.
Proof.
  split; [vm_compute; reflexivity |].
  split; [vm_compute; reflexivity |].
  split; [vm_compute; reflexivity |].
  split; vm_compute; reflexivity.
Qed.

(** C6 as stated fails in the column of index 599 and the row of index 336
    of the image of [main.cpp]: with a jitter of 0, which [random_double]
    may draw, u and v are exactly 1, in binary64 as in exact arithmetic;
    with a jitter of 0.5, u is above 1. *)
Lemma pixel_coordinates_reach_one :
  image_width (D := float) main_config = 600 /\
  image_height (D := float) main_config = 337 /\
  pixel_u (D := float) main_config 599 (of_int 0) = of_int 1 /\
  pixel_v (D := float) main_config 336 (of_int 0) = of_int 1 /\
  (pixel_u (D := float) main_config 599 (of_int 0) <? of_int 1)%D = false /\
  (pixel_v (D := float) main_config 336 (of_int 0) <? of_int 1)%D = false /\
  (of_int 1 <? pixel_u (D := float) main_config 599 (lit 0.5))%D = true /\
  (pixel_u (D := Q) main_config 599 0 == 1)%Q /\
  (pixel_v (D := Q) main_config 336 0 == 1)%Q.
Proof.
  split; [vm_compute; reflexivity |].
  split; [vm_compute; reflexivity |].
  split; [vm_compute; reflexivity |].
  split; [vm_compute; reflexivity |].
  split; [vm_compute; reflexivity |].
  split; [vm_compute; reflexivity |].
  split; [vm_compute; reflexivity |].
  split; vm_compute; reflexivity.
Qed.

(** ** The worker of [main.cpp] on a concrete scene *)

Example image_height_binary64 : image_height (D := float) main_config = 337.
Proof. vm_compute. reflexivity. Qed.
Example image_height_exact : image_height (D := Q) main_config = 337.
Proof. vm_compute. reflexivity. Qed.

(** The first [update] of a run: nothing precedes it. *)
Lemma update_opens_top_row :
  exists before after : list (call float (Z * Z * Z)),
    calls (renderImage main_config Demo.cam [Demo.grey] 0 (Demo.fresh main_config [])) =
      calls (Demo.fresh main_config []) ++ before ++ Update 0 336 :: after /\
    before = [].
Proof.
  assert (Hq : (0 < Z.to_nat (image_height (D := float) main_config))%nat)
    by (vm_compute; repeat constructor).
  destruct (update_opens_row main_config Demo.cam [Demo.grey] 0
              (Demo.fresh main_config []) 0 Hq)
    as (before & after & Hcalls & Hbefore & _ & _).
  exists before, after.
  split.
  - exact Hcalls.
  - destruct before; [reflexivity | discriminate Hbefore].
Defined.

(** C7 as stated fails on the image of [main.cpp]: the worker's first call
    is the [update] for row 336, and the first ray and the first push of
    that row come after it. *)
Lemma update_before_row_is_rendered :
  nth_error (map outline
    (calls (renderImage main_config Demo.cam [Demo.grey] 0 (Demo.fresh main_config []))))
    0 = Some (Update 0 336) /\
  nth_error (map outline
    (calls (renderImage main_config Demo.cam [Demo.grey] 0 (Demo.fresh main_config []))))
    1 = Some (GetRay 0 336 tt tt) /\
  nth_error (map outline
    (calls (renderImage main_config Demo.cam [Demo.grey] 0 (Demo.fresh main_config []))))
    2 = Some (PushPixel 0 336 tt).
Proof.
  destruct (renderImage_extends main_config Demo.cam [Demo.grey] 0
              (Demo.fresh main_config []))
    as (cs & Hcalls & _ & Houtline).
  rewrite Hcalls.
  change (calls (Demo.fresh main_config [])) with (@nil (call float (Z * Z * Z))).
  cbn [app]. rewrite Houtline.
  split; [vm_compute; reflexivity |].
  split; vm_compute; reflexivity.
Qed.

(** C5 as stated fails on the image of [main.cpp], whose rows have the
    indices 0 to 336: the buffer of a worker that starts from an empty image
    holds the pixels it pushed in the order it pushed them, and the first of
    them belongs to the row of index 336, not to the row of index 0; the
    pixel of rank 600, the first of the second row appended, belongs to the
    row of index 335. *)
Lemma renderImage_appends_last_row_first :
  image_height (D := float) main_config - 1 = 336 /\
  pixels (image (renderImage main_config Demo.cam [Demo.grey] 0 (Demo.fresh main_config []))) =
    map snd (pushes
      (calls (renderImage main_config Demo.cam [Demo.grey] 0 (Demo.fresh main_config [])))) /\
  nth_error (map fst (pushes
    (calls (renderImage main_config Demo.cam [Demo.grey] 0 (Demo.fresh main_config [])))))
    0 = Some (0, 336) /\
  nth_error (map fst (pushes
    (calls (renderImage main_config Demo.cam [Demo.grey] 0 (Demo.fresh main_config [])))))
    600 = Some (0, 335).
Proof.
  destruct (renderImage_extends main_config Demo.cam [Demo.grey] 0
              (Demo.fresh main_config []))
    as (cs & Hcalls & Hpixels & Houtline).
  rewrite Hcalls, Hpixels.
  change (calls (Demo.fresh main_config [])) with (@nil (call float (Z * Z * Z))).
  change (pixels (image (Demo.fresh main_config []))) with (@nil (Z * Z * Z)).
  cbn [app].
  rewrite pushes_outline, Houtline, pushes_image_outline.
  split; [vm_compute; reflexivity |].
  split; [reflexivity |].
  split; vm_compute; reflexivity.
Qed.

(** The image of [main.cpp] has 600 * 337 pixels, and each worker casts one
    ray per pixel. *)
Example main_image_size :
  image_width (D := float) main_config * image_height (D := float) main_config = 202200 /\
  samples_per_pixel (D := float) main_config = 1.
Proof. split; vm_compute; reflexivity. Qed.

(** A run on a 3 x 2 image with two samples per pixel. *)
Example render_small :
  let cfg := mkconfig 3 2 1 (lit 1.5) 5 in
  map outline (calls (renderImage cfg Demo.cam [Demo.grey] 0 (Demo.fresh cfg []))) =
  [Update 0 1;
   GetRay 0 1 tt tt; GetRay 0 1 tt tt; PushPixel 0 1 tt;
   GetRay 1 1 tt tt; GetRay 1 1 tt tt; PushPixel 1 1 tt;
   GetRay 2 1 tt tt; GetRay 2 1 tt tt; PushPixel 2 1 tt;
   Update 0 0;
   GetRay 0 0 tt tt; GetRay 0 0 tt tt; PushPixel 0 0 tt;
   GetRay 1 0 tt tt; GetRay 1 0 tt tt; PushPixel 1 0 tt;
   GetRay 2 0 tt tt; GetRay 2 0 tt tt; PushPixel 2 0 tt].
Proof. vm_compute. reflexivity. Qed.

(** The pixels of that run: each is [get_color] of the sum of its two
    samples, here two views of the sky. *)
Example render_small_pixels :
  let cfg := mkconfig 3 2 1 (lit 1.5) 5 in
  pixels (image (renderImage cfg Demo.cam [Demo.grey] 0 (Demo.fresh cfg []))) =
    [(206, 227, 255); (193, 220, 255); (206, 227, 255);
     (236, 244, 255); (246, 250, 255); (236, 244, 255)] /\
  fst (pixel_values cfg Demo.cam [Demo.grey] (visiting_order cfg) []) =
    [(206, 227, 255); (193, 220, 255); (206, 227, 255);
     (236, 244, 255); (246, 250, 255); (236, 244, 255)] /\
  List.length (fst (sample_colors cfg Demo.cam [Demo.grey] 1 1 2 [])) = 2%nat.
Proof.
  split; [vm_compute; reflexivity |].
  split; vm_compute; reflexivity.
Qed.

(** ** Runs of the progress tracker *)

Lemma store_length (l : list Z) (n : nat) (v : Z) :
  List.length (store l n v) = List.length l.
Proof.
  revert n. induction l as [| a l IH]; intros n; [reflexivity |].
  destruct n as [| n]; cbn [store List.length]; [reflexivity |].
  rewrite IH. reflexivity.
Qed.

Lemma store_same (l : list Z) (n : nat) (v : Z) :
  (n < List.length l)%nat -> nth_error (store l n v) n = Some v.
Proof.
  revert n. induction l as [| a l IH]; intros n Hn; cbn [List.length] in Hn; [lia |].
  destruct n as [| n]; cbn [store nth_error]; [reflexivity |].
  apply IH. lia.
Qed.

Lemma store_other (l : list Z) (n k : nat) (v : Z) :
  k <> n -> nth_error (store l n v) k = nth_error l k.
Proof.
  revert n k. induction l as [| a l IH]; intros n k Hk; [reflexivity |].
  destruct n as [| n], k as [| k]; cbn [store nth_error]; try reflexivity.
  - contradiction.
  - apply IH. intros ->. apply Hk. reflexivity.
Qed.

Lemma assign_length (l : list Z) (index value : Z) :
  List.length (assign l index value) = List.length l.
Proof.
  unfold assign. destruct (index <? 0); [reflexivity | apply store_length].
Qed.

Lemma assign_other (l : list Z) (index value : Z) (k : nat) :
  Z.of_nat k <> index -> nth_error (assign l index value) k = nth_error l k.
Proof.
  intros Hk. unfold assign.
  destruct (index <? 0) eqn:Hneg; [reflexivity |].
  apply Z.ltb_ge in Hneg. apply store_other. lia.
Qed.

Section ProgressRuns.

Context {D : Type} {arith : Arith D}.

Lemma update_linesLeft (now now' : D) (thread lineCount : Z) (pr : ThreadSafeProgress D) :
  linesLeft (fst (update now now' thread lineCount pr)) =
  assign (linesLeft pr) thread lineCount.
Proof.
  unfold update. destruct (thread =? 0); reflexivity.
Qed.

Lemma updates_cons (r : report D) (rs : list (report D)) (pr : ThreadSafeProgress D) :
  updates (r :: rs) pr =
  (fst (updates rs (fst (update (read_at r) (reset_at r) (worker_index r) (lines r) pr))),
   snd (update (read_at r) (reset_at r) (worker_index r) (lines r) pr)
   :: snd (updates rs (fst (update (read_at r) (reset_at r) (worker_index r) (lines r) pr)))).
Proof.
  cbn [updates].
  destruct (update (read_at r) (reset_at r) (worker_index r) (lines r) pr) as [pr1 line].
  cbn [fst snd].
  destruct (updates rs pr1) as [pr2 printed].
  reflexivity.
Qed.

Lemma updates_app (rs1 rs2 : list (report D)) (pr : ThreadSafeProgress D) :
  updates (rs1 ++ rs2) pr =
  (fst (updates rs2 (fst (updates rs1 pr))),
   snd (updates rs1 pr) ++ snd (updates rs2 (fst (updates rs1 pr)))).
Proof.
  revert pr. induction rs1 as [| r rs1 IH]; intros pr.
  - cbn [app updates fst snd]. destruct (updates rs2 pr). reflexivity.
  - cbn [app]. rewrite !updates_cons, IH. reflexivity.
Qed.

Lemma init_loop (m : nat) :
  forall (i : Z) (q : ThreadSafeProgress D),
    linesLeft (for_loop m i 1
                 (fun _ q => mkProgress (linesLeft q ++ [0]) (timer q) (estimatedTime q)) q) =
      linesLeft q ++ repeat 0 m /\
    estimatedTime (for_loop m i 1
                 (fun _ q => mkProgress (linesLeft q ++ [0]) (timer q) (estimatedTime q)) q) =
      estimatedTime q.
Proof.
  induction m as [| m IH]; intros i q; cbn [for_loop repeat].
  - rewrite app_nil_r. split; reflexivity.
  - destruct (IH (i + 1) (mkProgress (linesLeft q ++ [0]) (timer q) (estimatedTime q)))
      as [Hl He].
    rewrite Hl, He. cbn [linesLeft estimatedTime].
    rewrite <- app_assoc. split; reflexivity.
Qed.

Lemma init_linesLeft (n : Z) (now : D) (pr : ThreadSafeProgress D) :
  linesLeft (init n now pr) = linesLeft pr ++ repeat 0 (Z.to_nat n).
Proof.
  unfold init, for_up. cbn [linesLeft]. rewrite Z.sub_0_r. apply init_loop.
Qed.

(** X1.  [init(threadCount)] appends threadCount zero counters to the ones
    the tracker already has (none for a count of zero or below), resets the
    timer and leaves the estimate alone: it never clears the vector, so a
    second call doubles it. *)
Theorem init_appends (n : Z) (now : D) (pr : ThreadSafeProgress D) :
  linesLeft (init n now pr) = linesLeft pr ++ repeat 0 (Z.to_nat n) /\
  timer (init n now pr) = mkTimer now /\
  estimatedTime (init n now pr) = estimatedTime pr /\
  linesLeft (init n now (init n now pr)) =
    linesLeft pr ++ repeat 0 (Z.to_nat n) ++ repeat 0 (Z.to_nat n).
Proof.
  split; [apply init_linesLeft |].
  split; [reflexivity |].
  split.
  - unfold init, for_up. cbn [estimatedTime]. apply init_loop.
  - rewrite !init_linesLeft, <- app_assoc. reflexivity.
Qed.

(** X2.  A report from a worker whose index is inside the vector of
    counters overwrites that worker's counter and no other: the vector keeps
    its length, the counter reads back the count just written, every other
    counter is what it was, and the status line printed is the new vector. *)
Theorem update_counter (now now' : D) (thread lineCount : Z) (pr : ThreadSafeProgress D) :
  0 <= thread < Z.of_nat (List.length (linesLeft pr)) ->
  List.length (linesLeft (fst (update now now' thread lineCount pr))) =
    List.length (linesLeft pr) /\
  nth_error (linesLeft (fst (update now now' thread lineCount pr))) (Z.to_nat thread) =
    Some lineCount /\
  (forall k : nat,
      k <> Z.to_nat thread ->
      nth_error (linesLeft (fst (update now now' thread lineCount pr))) k =
      nth_error (linesLeft pr) k) /\
  remaining (snd (update now now' thread lineCount pr)) =
    linesLeft (fst (update now now' thread lineCount pr)).
Proof.
  intros Hthread.
  rewrite update_linesLeft.
  split; [apply assign_length |].
  split; [| split].
  - unfold assign.
    assert (Hneg : (thread <? 0) = false) by (apply Z.ltb_ge; lia).
    rewrite Hneg. apply store_same. lia.
  - intros k Hk. apply assign_other. lia.
  - unfold update. destruct (thread =? 0); reflexivity.
Qed.

Lemma updates_length (rs : list (report D)) :
  forall pr : ThreadSafeProgress D,
    List.length (linesLeft (fst (updates rs pr))) = List.length (linesLeft pr) /\
    Forall (fun line => List.length (remaining line) = List.length (linesLeft pr))
           (snd (updates rs pr)).
Proof.
  induction rs as [| r rs IH]; intros pr.
  - split; [reflexivity | constructor].
  - rewrite updates_cons. cbn [fst snd].
    assert (Hone : List.length
                     (linesLeft (fst (update (read_at r) (reset_at r) (worker_index r)
                                        (lines r) pr))) =
                   List.length (linesLeft pr))
      by (rewrite update_linesLeft; apply assign_length).
    destruct (IH (fst (update (read_at r) (reset_at r) (worker_index r) (lines r) pr)))
      as [Hlen Hall].
    rewrite Hone in Hlen, Hall.
    split; [exact Hlen |].
    constructor; [| exact Hall].
    rewrite <- Hone.
    unfold update. destruct (worker_index r =? 0); reflexivity.
Qed.

Lemma updates_other (k : nat) (rs : list (report D)) :
  forall pr : ThreadSafeProgress D,
    Forall (fun r => worker_index r <> Z.of_nat k) rs ->
    nth_error (linesLeft (fst (updates rs pr))) k = nth_error (linesLeft pr) k.
Proof.
  induction rs as [| r rs IH]; intros pr Hrs; [reflexivity |].
  inversion Hrs as [| r' rs' Hr Hrest]; subst.
  rewrite updates_cons. cbn [fst].
  rewrite (IH _ Hrest), update_linesLeft.
  apply assign_other. intros Heq. apply Hr. symmetry. exact Heq.
Qed.

Lemma last_report_stays (before after : list (report D)) (r : report D)
      (pr : ThreadSafeProgress D) :
  0 <= worker_index r < Z.of_nat (List.length (linesLeft pr)) ->
  Forall (fun r' => worker_index r' <> worker_index r) after ->
  nth_error (linesLeft (fst (updates (before ++ r :: after) pr)))
            (Z.to_nat (worker_index r)) = Some (lines r).
Proof.
  intros Hin Hafter.
  rewrite updates_app. cbn [fst].
  rewrite updates_cons. cbn [fst].
  rewrite updates_other.
  - rewrite update_linesLeft. unfold assign.
    assert (Hneg : (worker_index r <? 0) = false) by (apply Z.ltb_ge; lia).
    rewrite Hneg. apply store_same.
    destruct (updates_length before pr) as [Hlen _]. lia.
  - rewrite Z2Nat.id by lia. exact Hafter.
Qed.

(** X3.  Each counter holds what its worker last reported: after any run of
    reports, the counter of a worker whose index is inside the vector reads
    the count of that worker's most recent report, whatever the other
    workers reported before, between or after. *)
Theorem counter_holds_last_report (before after : list (report D)) (r : report D)
        (pr : ThreadSafeProgress D) :
  0 <= worker_index r < Z.of_nat (List.length (linesLeft pr)) ->
  Forall (fun r' => worker_index r' <> worker_index r) after ->
  nth_error (linesLeft (fst (updates (before ++ r :: after) pr)))
            (Z.to_nat (worker_index r)) = Some (lines r).
Proof.
  intros Hin Hafter. apply last_report_stays; assumption.
Qed.

(** X4.  After [init(threadCount)] on a tracker without counters, every
    status line of every later run lists exactly threadCount counters: no
    report adds or removes one. *)
Theorem status_lines_list_every_worker (n : Z) (now : D) (rs : list (report D))
        (pr : ThreadSafeProgress D) :
  linesLeft pr = [] ->
  Forall (fun line => List.length (remaining line) = Z.to_nat n)
         (snd (updates rs (init n now pr))) /\
  List.length (linesLeft (fst (updates rs (init n now pr)))) = Z.to_nat n.
Proof.
  intros Hempty.
  destruct (updates_length rs (init n now pr)) as [Hlen Hall].
  rewrite init_linesLeft, Hempty in Hlen, Hall.
  cbn [app] in Hlen, Hall. rewrite repeat_length in Hlen, Hall.
  split; assumption.
Qed.

Lemma updates_of_others (rs : list (report D)) :
  forall pr : ThreadSafeProgress D,
    Forall (fun r => worker_index r <> 0) rs ->
    timer (fst (updates rs pr)) = timer pr /\
    estimatedTime (fst (updates rs pr)) = estimatedTime pr /\
    Forall (fun line => minutes line = (estimatedTime pr / lit 60.0)%D)
           (snd (updates rs pr)).
Proof.
  induction rs as [| r rs IH]; intros pr Hrs.
  - repeat split. constructor.
  - inversion Hrs as [| r' rs' Hr Hrest]; subst.
    rewrite updates_cons. cbn [fst snd].
    destruct (update_estimate (read_at r) (reset_at r) (worker_index r) (lines r) pr)
      as (_ & Hother & Hline & _).
    destruct (Hother Hr) as [Hest Htimer].
    destruct (IH (fst (update (read_at r) (reset_at r) (worker_index r) (lines r) pr)) Hrest)
      as (IHtimer & IHest & IHlines).
    rewrite Hest in IHest, IHlines. rewrite Htimer in IHtimer.
    split; [exact IHtimer |].
    split; [exact IHest |].
    constructor; [| exact IHlines].
    rewrite Hline, Hest. reflexivity.
Qed.

(** X5.  The estimate is worker 0's alone.  Between two reports of worker
    0 the reports of the other workers neither restart the timer nor change
    the estimate: each of them prints worker 0's last estimate, and worker
    0's next estimate is the time from the reset of its previous report to
    the reading of the new one, times the new count. *)
Theorem estimate_spans_own_reports (r0 r1 : report D) (others : list (report D))
        (pr : ThreadSafeProgress D) :
  worker_index r0 = 0 ->
  worker_index r1 = 0 ->
  Forall (fun r => worker_index r <> 0) others ->
  estimatedTime (fst (updates (r0 :: others ++ [r1]) pr)) =
    ((read_at r1 - reset_at r0) * of_int (lines r1))%D /\
  Forall (fun line =>
            minutes line =
            ((read_at r0 - started (timer pr)) * of_int (lines r0) / lit 60.0)%D)
         (snd (updates (r0 :: others) pr)).
Proof.
  intros H0 H1 Hothers.
  destruct (update_estimate (read_at r0) (reset_at r0) (worker_index r0) (lines r0) pr)
    as (Hzero & _ & Hline & _).
  destruct (Hzero H0) as [Hest0 Htimer0].
  destruct (updates_of_others others
              (fst (update (read_at r0) (reset_at r0) (worker_index r0) (lines r0) pr))
              Hothers)
    as (Htimer & Hest & Hlines).
  split.
  - rewrite updates_cons. cbn [fst].
    rewrite updates_app. cbn [fst].
    rewrite updates_cons. cbn [updates fst].
    destruct (update_estimate (read_at r1) (reset_at r1) (worker_index r1) (lines r1)
                (fst (updates others
                        (fst (update (read_at r0) (reset_at r0) (worker_index r0)
                                (lines r0) pr)))))
      as (Hzero1 & _).
    destruct (Hzero1 H1) as [Hest1 _].
    rewrite Hest1, Htimer, Htimer0. reflexivity.
  - rewrite updates_cons. cbn [snd].
    rewrite Hest0 in Hlines. unfold getElapsedS in Hlines.
    constructor; [| exact Hlines].
    rewrite Hline, Hest0. reflexivity.
Qed.

End ProgressRuns.

(** X6.  In exact arithmetic no run of reports ever prints a negative
    estimate: if the clock never runs backwards, the counts reported are
    not negative, and the tracker starts with a non-negative estimate and a
    timer that was not reset in the future, every status line shows a
    non-negative number of minutes, and the stored estimate ends
    non-negative. *)
Theorem estimates_never_negative (rs : list (report Q)) :
  forall (t0 : Q) (pr : ThreadSafeProgress Q),
    in_time_order t0 rs ->
    (started (timer pr) <= t0)%Q ->
    (0 <= estimatedTime pr)%Q ->
    Forall (fun r => 0 <= lines r) rs ->
    Forall (fun line => (0 <= minutes line)%Q) (snd (updates rs pr)) /\
    (0 <= estimatedTime (fst (updates rs pr)))%Q.
Proof.
  induction rs as [| r rs IH]; intros t0 pr Horder Hstart Hest Hcounts.
  - split; [constructor | exact Hest].
  - destruct Horder as (Hread & Hreset & Horder).
    inversion Hcounts as [| r' rs' Hcount Hrest]; subst.
    rewrite updates_cons. cbn [fst snd].
    destruct (update_estimate (read_at r) (reset_at r) (worker_index r) (lines r) pr)
      as (Hzero & Hother & Hline & _).
    assert (Hnew : (0 <= estimatedTime
                           (fst (update (read_at r) (reset_at r) (worker_index r)
                                   (lines r) pr)))%Q /\
                   (started (timer (fst (update (read_at r) (reset_at r) (worker_index r)
                                           (lines r) pr))) <= reset_at r)%Q).
    { destruct (Z.eq_dec (worker_index r) 0) as [Hw | Hw].
      - destruct (Hzero Hw) as [-> ->]. split.
        + apply Qmult_le_0_compat.
          * unfold getElapsedS. cbn. lra.
          * change 0%Q with (inject_Z 0). rewrite <- Zle_Qle. exact Hcount.
        + cbn. lra.
      - destruct (Hother Hw) as [-> ->]. split; [exact Hest | lra]. }
    destruct Hnew as [Hnew Hstart'].
    destruct (IH (reset_at r) _ Horder Hstart' Hnew Hrest) as [IHlines IHest].
    split; [| exact IHest].
    constructor; [| exact IHlines].
    rewrite Hline.
    apply Qle_shift_div_l; [reflexivity | lra].
Qed.

(** Worker 1 of two reports 7 lines left. *)
Lemma update_counter_second_worker :
  nth_error (linesLeft (fst (update 12%Q 12.5%Q 1 7 Demo.tracker))) (Z.to_nat 1) = Some 7.
Proof.
  refine (proj1 (proj2 (update_counter 12%Q 12.5%Q 1 7 Demo.tracker _))).
  cbn. lia.
Defined.

(** Worker 0 reports between two reports of worker 1. *)
Lemma counter_holds_last_report_of_worker_zero :
  nth_error
    (linesLeft (fst (updates ([mkreport 11%Q 11%Q 1 39] ++
                              mkreport 12%Q 12.5%Q 0 30 :: [mkreport 13%Q 13%Q 1 38])
                             Demo.tracker)))
    (Z.to_nat (worker_index (mkreport 12%Q 12.5%Q 0 30))) = Some 30.
Proof.
  refine (counter_holds_last_report [mkreport 11%Q 11%Q 1 39] [mkreport 13%Q 13%Q 1 38]
            (mkreport 12%Q 12.5%Q 0 30) Demo.tracker _ _).
  - cbn. lia.
  - constructor; [cbn; lia | constructor].
Defined.

(** Two workers, three reports. *)
Lemma status_lines_list_two_workers :
  Forall (fun line => List.length (remaining line) = Z.to_nat 2)
         (snd (updates [mkreport 11%Q 11%Q 1 39; mkreport 12%Q 12.5%Q 0 30;
                        mkreport 13%Q 13%Q 1 38]
                       (init 2 10%Q (mkProgress [] (mkTimer 0%Q) 0%Q)))).
Proof.
  refine (proj1 (status_lines_list_every_worker 2 10%Q
                   [mkreport 11%Q 11%Q 1 39; mkreport 12%Q 12.5%Q 0 30;
                    mkreport 13%Q 13%Q 1 38]
                   (mkProgress [] (mkTimer 0%Q) 0%Q) _)).
  reflexivity.
Defined.

(** Worker 0 reports at 12 s (reset at 12.5 s) and again at 14 s, worker 1
    in between: the second estimate spans 1.5 s. *)
Lemma estimate_spans_one_and_a_half_seconds :
  estimatedTime
    (fst (updates (mkreport 12%Q 12.5%Q 0 30 ::
                   [mkreport 13%Q 13%Q 1 38] ++ [mkreport 14%Q 14%Q 0 29])
                  Demo.tracker)) =
  ((14 - 12.5) * inject_Z 29)%Q.
Proof.
  refine (proj1 (estimate_spans_own_reports (mkreport 12%Q 12.5%Q 0 30)
                   (mkreport 14%Q 14%Q 0 29) [mkreport 13%Q 13%Q 1 38]
                   Demo.tracker _ _ _)).
  - reflexivity.
  - reflexivity.
  - constructor; [cbn; lia | constructor].
Defined.

(** The same three reports, in time order from 10 s on. *)
Lemma estimates_never_negative_three_reports :
  Forall (fun line => (0 <= minutes line)%Q)
         (snd (updates [mkreport 12%Q 12.5%Q 0 30; mkreport 13%Q 13%Q 1 38;
                        mkreport 14%Q 14%Q 0 29]
                       Demo.tracker)).
Proof.
  refine (proj1 (estimates_never_negative
                   [mkreport 12%Q 12.5%Q 0 30; mkreport 13%Q 13%Q 1 38;
                    mkreport 14%Q 14%Q 0 29]
                   10%Q Demo.tracker _ _ _ _)).
  - cbn [in_time_order read_at reset_at].
    split; [vm_compute; discriminate |].
    split; [vm_compute; discriminate |].
    split; [vm_compute; discriminate |].
    split; [vm_compute; discriminate |].
    split; [vm_compute; discriminate |].
    split; [vm_compute; discriminate | exact I].
  - vm_compute. discriminate.
  - vm_compute. discriminate.
  - repeat constructor; cbn; lia.
Defined.

(** ** Paths of the path tracer *)

Section RayColorPaths.

Context {D : Type} {arith : Arith D} {floating : Floating D}.
Context {G M W : Type} {material : Material D G M} {hittable : Hittable D M W}.

(** X7.  The colour of a ray is a product along its path: the attenuations
    returned by [scatter] at the successive hits, multiplied onto the colour
    the path ends in, which is black when the depth is used up or the ray
    is absorbed, and the sky seen by the last ray when it misses.  There
    are at most depth bounces, and there are depth of them exactly when the
    path ends because the depth is used up: a ray that has not left the
    scene within max_depth bounces carries no light. *)
Theorem ray_color_path (r : ray D) (world : W) (depth : Z) (g : G) :
  fst (ray_color r world depth g) =
    fold_right vmul (end_color (snd (path (Z.to_nat depth) r world g)))
               (fst (path (Z.to_nat depth) r world g)) /\
  (List.length (fst (path (Z.to_nat depth) r world g)) <= Z.to_nat depth)%nat /\
  (List.length (fst (path (Z.to_nat depth) r world g)) = Z.to_nat depth <->
   snd (path (Z.to_nat depth) r world g) = Exhausted).
Proof.
  remember (Z.to_nat depth) as n eqn:Hn.
  revert depth r g Hn.
  induction n as [| n IH]; intros depth r g Hn.
  - rewrite ray_color_body.
    assert (Hle : (depth <=? 0) = true) by (apply Z.leb_le; lia).
    rewrite Hle. cbn [path fst snd fold_right end_color List.length].
    split; [reflexivity |]. split; [lia |]. split; reflexivity.
  - assert (Hf : (depth <=? 0) = false) by (apply Z.leb_gt; lia).
    rewrite ray_color_body, Hf. cbn [path].
    destruct (hit world r (lit 0.001) infinity) as [rec |].
    + destruct (scatter (mat_ptr rec) r rec g) as [[[attenuation scattered] |] g1].
      * destruct (IH (depth - 1) scattered g1 ltac:(lia)) as (Hcolor & Hlen & Hfull).
        destruct (ray_color scattered world (depth - 1) g1) as [c g2].
        destruct (path n scattered world g1) as [attenuations e].
        cbn [fst snd fold_right List.length] in Hcolor, Hlen, Hfull |- *.
        rewrite Hcolor.
        split; [reflexivity |]. split; [lia |].
        split; intros H.
        -- apply Hfull. lia.
        -- apply Hfull in H. lia.
      * cbn [fst snd fold_right end_color List.length].
        split; [reflexivity |]. split; [lia |].
        split; intros H; [lia | discriminate H].
    + cbn [fst snd fold_right end_color List.length].
      split; [reflexivity |]. split; [lia |].
      split; intros H; [lia | discriminate H].
Qed.

Lemma ray_color_settled_at (fuel : nat) :
  forall (r : ray D) (world : W) (depth depth' : Z) (g : G) (res : color D * G) (n : nat),
    ray_color_steps fuel r world depth g = Some (res, n) ->
    Z.of_nat n < depth ->
    depth <= depth' ->
    ray_color r world depth' g = res.
Proof.
  induction fuel as [| fuel IH]; intros r world depth depth' g res n Hrun Hn Hdepth.
  - discriminate Hrun.
  - rewrite ray_color_steps_S in Hrun.
    destruct (depth <=? 0) eqn:Hle.
    + apply Z.leb_le in Hle. lia.
    + apply Z.leb_gt in Hle.
      assert (Hf : (depth' <=? 0) = false) by (apply Z.leb_gt; lia).
      rewrite ray_color_body, Hf.
      destruct (hit world r (lit 0.001) infinity) as [rec |].
      * destruct (scatter (mat_ptr rec) r rec g) as [[[attenuation scattered] |] g1].
        -- destruct (ray_color_steps fuel scattered world (depth - 1) g1)
             as [[[c g2] m] |] eqn:Hinner; [| discriminate Hrun].
           inversion Hrun; subst.
           rewrite (IH scattered world (depth - 1) (depth' - 1) g1 (c, g2) m Hinner)
             by lia.
           reflexivity.
        -- inversion Hrun; subst. reflexivity.
      * inversion Hrun; subst. reflexivity.
Qed.

(** X8.  Raising max_depth does not change a path that ended on its own:
    if at some depth the ray left the scene or was absorbed after fewer
    bounces than the depth allows, [ray_color] returns the same colour, and
    leaves the generator in the same state, at every greater depth. *)
Theorem ray_color_settled (fuel : nat) (r : ray D) (world : W) (depth depth' : Z) (g : G)
        (res : color D * G) (n : nat) :
  ray_color_steps fuel r world depth g = Some (res, n) ->
  Z.of_nat n < depth ->
  depth <= depth' ->
  ray_color r world depth' g = res /\ ray_color r world depth g = res.
Proof.
  intros Hrun Hn Hdepth.
  split.
  - apply (ray_color_settled_at fuel r world depth depth' g res n Hrun Hn Hdepth).
  - apply (ray_color_settled_at fuel r world depth depth g res n Hrun Hn). lia.
Qed.

End RayColorPaths.

(** The ray [up] bounces once off the grey sphere and leaves: depth 3 and
    depth 50 give the same colour. *)
Lemma ray_color_settled_grey :
  ray_color (G := list float) Demo.up [Demo.grey] 50 [] =
    (mkvec3 (lit 0.5) (lit 0.5) (lit 0.5), []) /\
  ray_color (G := list float) Demo.up [Demo.grey] 3 [] =
    (mkvec3 (lit 0.5) (lit 0.5) (lit 0.5), []).
Proof.
  refine (ray_color_settled 5 Demo.up [Demo.grey] 3 50 []
            (mkvec3 (lit 0.5) (lit 0.5) (lit 0.5), []) 1 _ _ _).
  - vm_compute. reflexivity.
  - lia.
  - lia.
Defined.

(** The ray [up] at depth 3 bounces once off the grey sphere, whose albedo
    is the one attenuation of its path, and leaves downwards; at depth 1 the
    same bounce uses the depth up and the colour is black. *)
Example path_grey :
  path (G := list float) 3 Demo.up [Demo.grey] [] =
    ([mkvec3 (lit 0.5) (lit 0.5) (lit 0.5)],
     Escaped (mkray (mkvec3 (of_int 0) (of_int 2) (of_int 0))
                    (mkvec3 (of_int 0) (of_int (-1)) (of_int 0)))) /\
  fst (ray_color (G := list float) Demo.up [Demo.grey] 3 []) =
    mkvec3 (lit 0.5) (lit 0.5) (lit 0.5) /\
  path (G := list float) 1 Demo.up [Demo.grey] [] =
    ([mkvec3 (lit 0.5) (lit 0.5) (lit 0.5)], Exhausted) /\
  fst (ray_color (G := list float) Demo.up [Demo.grey] 1 []) =
    mkvec3 (of_int 0) (of_int 0) (of_int 0).
Proof.
  split; [vm_compute; reflexivity |].
  split; [vm_compute; reflexivity |].
  split; vm_compute; reflexivity.
Qed.

(** ** More on the render worker *)

Lemma update_calls_app {D P : Type} (cs1 cs2 : list (call D P)) :
  update_calls (cs1 ++ cs2) = update_calls cs1 ++ update_calls cs2.
Proof.
  induction cs1 as [| c cs1 IH]; [reflexivity |].
  destruct c; cbn [app update_calls]; rewrite IH; reflexivity.
Qed.

Lemma update_calls_outline {D P : Type} (cs : list (call D P)) :
  update_calls cs = update_calls (map outline cs).
Proof.
  induction cs as [| c cs IH]; [reflexivity |].
  destruct c; cbn [map outline update_calls]; rewrite IH; reflexivity.
Qed.

Lemma for_loop_related {S : Type} (R : S -> S -> Prop) (body1 body2 : Z -> S -> S)
      (step : Z) :
  (forall i s1 s2, R s1 s2 -> R (body1 i s1) (body2 i s2)) ->
  forall n i s1 s2,
    R s1 s2 -> R (for_loop n i step body1 s1) (for_loop n i step body2 s2).
Proof.
  intros Hbody n.
  induction n as [| n IH]; intros i s1 s2 Hs; cbn [for_loop].
  - exact Hs.
  - apply IH, Hbody, Hs.
Qed.

Section RenderRuns.

Context {D : Type} {arith : Arith D} {floating : Floating D}.
Context {G C P : Type} {random : Random D G}.
Context {mat : Material D G (material D)}.
Context {hittable : Hittable D (material D) (hittable_list D)}.
Context {camera : Camera D G C} {tonemap : ToneMap D P}.

Variable cfg : config D.
Variable cam : C.

Lemma update_calls_pixel_outline (i j : Z) :
  update_calls (pixel_outline cfg i j) = [].
Proof.
  unfold pixel_outline. rewrite update_calls_app.
  induction (Z.to_nat (samples_per_pixel cfg)) as [| n IH]; [reflexivity | exact IH].
Qed.

Lemma update_calls_image_outline (thread : Z) :
  update_calls (image_outline cfg thread) = map (fun j => (thread, j)) (rows cfg).
Proof.
  unfold image_outline.
  induction (rows cfg) as [| j l IH]; [reflexivity |].
  cbn [flat_map map]. rewrite update_calls_app, IH.
  unfold row_outline at 1. cbn [update_calls].
  replace (update_calls (row_pixels_outline cfg j)) with (@nil (Z * Z)); [reflexivity |].
  unfold row_pixels_outline.
  induction (columns cfg) as [| i c IHc]; [reflexivity |].
  cbn [flat_map]. rewrite update_calls_app, update_calls_pixel_outline. exact IHc.
Qed.

(** X9.  A worker reports its progress exactly image_height times, always
    under its own index, with the counts image_height - 1, image_height - 2,
    ..., 0 in that order: the q-th report (from 0) carries the count
    image_height - 1 - q, so the last one says that no line is left. *)
Theorem renderImage_reports (world : hittable_list D) (thread : Z) (w : worker D G P) :
  exists cs : list (call D P),
    calls (renderImage cfg cam world thread w) = calls w ++ cs /\
    update_calls cs = map (fun j => (thread, j)) (rows cfg) /\
    List.length (update_calls cs) = Z.to_nat (image_height cfg) /\
    (forall q : nat,
        (q < Z.to_nat (image_height cfg))%nat ->
        nth_error (update_calls cs) q = Some (thread, image_height cfg - 1 - Z.of_nat q)).
Proof.
  destruct (renderImage_extends cfg cam world thread w) as (cs & Hcalls & _ & Houtline).
  assert (Hreports : update_calls cs = map (fun j => (thread, j)) (rows cfg)).
  { rewrite update_calls_outline, Houtline. apply update_calls_image_outline. }
  exists cs.
  split; [exact Hcalls |].
  split; [exact Hreports |].
  rewrite Hreports.
  split.
  - rewrite length_map. unfold rows. apply indices_length.
  - intros q Hq. rewrite nth_error_map. unfold rows.
    rewrite (indices_nth _ _ _ q Hq). cbn [option_map].
    replace (image_height cfg - 1 + -1 * Z.of_nat q)
      with (image_height cfg - 1 - Z.of_nat q) by lia.
    reflexivity.
Qed.

Lemma render_pixel_idle (world : hittable_list D) (j i : Z) (w : worker D G P) :
  samples_per_pixel cfg <= 0 ->
  gen (render_pixel cfg cam world j i w) = gen w /\
  pixels (image (render_pixel cfg cam world j i w)) =
    pixels (image w) ++
    [get_color (mkvec3 (of_int 0) (of_int 0) (of_int 0)) (samples_per_pixel cfg)].
Proof.
  intros Hspp. unfold render_pixel, for_up.
  replace (Z.to_nat (samples_per_pixel cfg - 0)) with O by lia.
  cbn [for_loop gen image pushPixel pixels].
  split; reflexivity.
Qed.

(** X10.  When threadCount exceeds the sample budget, samples_per_pixel is
    0 and a worker casts no ray at all: it draws no random number, and
    every one of the image_width * image_height pixels it pushes is
    get_color of black with a sample count of 0. *)
Theorem renderImage_without_samples (world : hittable_list D) (thread : Z)
        (w : worker D G P) :
  samples_per_pixel cfg <= 0 ->
  gen (renderImage cfg cam world thread w) = gen w /\
  pixels (image (renderImage cfg cam world thread w)) =
    pixels (image w) ++
    repeat (get_color (mkvec3 (of_int 0) (of_int 0) (of_int 0)) (samples_per_pixel cfg))
           (Z.to_nat (image_width cfg) * Z.to_nat (image_height cfg)) /\
  exists cs : list (call D P),
    calls (renderImage cfg cam world thread w) = calls w ++ cs /\
    forall i j : Z, samples_at i j cs = O.
Proof.
  intros Hspp.
  set (c := get_color (mkvec3 (of_int 0) (of_int 0) (of_int 0)) (samples_per_pixel cfg)).
  assert (Hrow : forall j (w0 : worker D G P),
             gen (render_row cfg cam world thread j w0) = gen w0 /\
             pixels (image (render_row cfg cam world thread j w0)) =
               pixels (image w0) ++ repeat c (Z.to_nat (image_width cfg))).
  { intros j w0. unfold render_row, for_up. rewrite Z.sub_0_r.
    pose proof (for_loop_invariant
                  (fun k (w' : worker D G P) =>
                     gen w' = gen w0 /\
                     pixels (image w') = pixels (image w0) ++ repeat c k)
                  (render_pixel cfg cam world j) 1) as Hinv.
    apply (Hinv) with (k := O) (n := Z.to_nat (image_width cfg)).
    - intros k i s [Hg Hp].
      destruct (render_pixel_idle world j i s Hspp) as [Hg' Hp'].
      rewrite Hg', Hp', Hg, Hp. split; [reflexivity |].
      rewrite <- app_assoc. f_equal.
      change [get_color (mkvec3 (of_int 0) (of_int 0) (of_int 0)) (samples_per_pixel cfg)]
        with (repeat c 1).
      rewrite <- repeat_app. f_equal. lia.
    - cbn [gen image repeat]. rewrite app_nil_r. split; reflexivity. }
  assert (Himage : gen (renderImage cfg cam world thread w) = gen w /\
                   pixels (image (renderImage cfg cam world thread w)) =
                     pixels (image w) ++
                     repeat c (Z.to_nat (image_width cfg) *
                               (0 + Z.to_nat (image_height cfg)))).
  { unfold renderImage, for_down.
    replace (image_height cfg - 1 - 0 + 1) with (image_height cfg) by lia.
    apply (for_loop_invariant
             (fun k (w' : worker D G P) =>
                gen w' = gen w /\
                pixels (image w') =
                  pixels (image w) ++ repeat c (Z.to_nat (image_width cfg) * k))
             (render_row cfg cam world thread) (-1)).
    - intros k j s [Hg Hp].
      destruct (Hrow j s) as [Hg' Hp'].
      rewrite Hg', Hp', Hg, Hp. split; [reflexivity |].
      rewrite <- app_assoc, <- repeat_app. do 2 f_equal. lia.
    - rewrite Nat.mul_0_r. cbn [repeat]. rewrite app_nil_r. split; reflexivity. }
  destruct Himage as [Hgen Hpixels].
  split; [exact Hgen |].
  split; [exact Hpixels |].
  destruct (renderImage_extends cfg cam world thread w) as (cs & Hcalls & _ & Houtline).
  exists cs. split; [exact Hcalls |].
  intros i j.
  rewrite samples_at_outline, Houtline.
  unfold image_outline. rewrite samples_at_flat_map.
  apply list_sum_zero. intros j' _.
  unfold row_outline.
  change (Update thread j' :: ?l) with ([Update thread j'] ++ l).
  rewrite samples_at_app.
  change (samples_at i j [Update thread j']) with O. cbn [Nat.add].
  unfold row_pixels_outline. rewrite samples_at_flat_map.
  apply list_sum_zero. intros i' _.
  rewrite samples_at_pixel_outline.
  replace (Z.to_nat (samples_per_pixel cfg)) with O by lia.
  destruct ((i' =? i) && (j' =? j)); reflexivity.
Qed.

Lemma sample_related (world : hittable_list D) (i j : Z) (c : color D)
      (w1 w2 : worker D G P) :
  same_render w1 w2 ->
  fst (sample cfg cam world i j (c, w1)) = fst (sample cfg cam world i j (c, w2)) /\
  same_render (snd (sample cfg cam world i j (c, w1)))
              (snd (sample cfg cam world i j (c, w2))).
Proof.
  intros [Hgen Himage]. unfold sample. rewrite Hgen.
  destruct (random_double (gen w2)) as [r1 g1].
  destruct (random_double g1) as [r2 g2].
  destruct (get_ray cam (pixel_u cfg i r1) (pixel_v cfg j r2) g2) as [r g3].
  destruct (ray_color r world (max_depth cfg) g3) as [c' g4].
  cbn [fst snd]. split; [reflexivity |].
  split; [reflexivity | exact Himage].
Qed.

Lemma sample_pair_related (world : hittable_list D) (i j : Z)
      (s1 s2 : color D * worker D G P) :
  fst s1 = fst s2 /\ same_render (snd s1) (snd s2) ->
  fst (sample cfg cam world i j s1) = fst (sample cfg cam world i j s2) /\
  same_render (snd (sample cfg cam world i j s1)) (snd (sample cfg cam world i j s2)).
Proof.
  destruct s1 as [c1 w1], s2 as [c2 w2]. cbn [fst snd].
  intros [-> Hsame]. apply sample_related. exact Hsame.
Qed.

Lemma render_pixel_related (world : hittable_list D) (j i : Z) (w1 w2 : worker D G P) :
  same_render w1 w2 ->
  same_render (render_pixel cfg cam world j i w1) (render_pixel cfg cam world j i w2).
Proof.
  intros Hsame. unfold render_pixel, for_up.
  set (black := mkvec3 (of_int 0) (of_int 0) (of_int 0)).
  set (n := Z.to_nat (samples_per_pixel cfg - 0)).
  assert (Hloop :
            fst (for_loop n 0 1 (fun _ => sample cfg cam world i j) (black, w1)) =
            fst (for_loop n 0 1 (fun _ => sample cfg cam world i j) (black, w2)) /\
            same_render
              (snd (for_loop n 0 1 (fun _ => sample cfg cam world i j) (black, w1)))
              (snd (for_loop n 0 1 (fun _ => sample cfg cam world i j) (black, w2)))).
  { apply (for_loop_related
             (fun s1 s2 : color D * worker D G P =>
                fst s1 = fst s2 /\ same_render (snd s1) (snd s2))).
    - intros k s1 s2 Hs. apply sample_pair_related. exact Hs.
    - cbn [fst snd]. split; [reflexivity | exact Hsame]. }
  destruct (for_loop n 0 1 (fun _ => sample cfg cam world i j) (black, w1)) as [c1 v1].
  destruct (for_loop n 0 1 (fun _ => sample cfg cam world i j) (black, w2)) as [c2 v2].
  cbn [fst snd] in Hloop. destruct Hloop as [Hc [Hgen Himage]].
  unfold same_render. cbn [gen image].
  rewrite Hc, Hgen, Himage. split; reflexivity.
Qed.

(** X11.  The thread index reaches nothing but the progress reports: two
    runs that start from the same generator state and the same image end
    with the same image and the same generator state, whatever their thread
    indices. *)
Theorem renderImage_ignores_thread_index (world : hittable_list D) (thread1 thread2 : Z)
        (w : worker D G P) :
  image (renderImage cfg cam world thread1 w) = image (renderImage cfg cam world thread2 w) /\
  gen (renderImage cfg cam world thread1 w) = gen (renderImage cfg cam world thread2 w).
Proof.
  assert (Hsame : same_render (renderImage cfg cam world thread1 w)
                              (renderImage cfg cam world thread2 w)).
  { unfold renderImage, for_down.
    apply (for_loop_related same_render).
    - intros j w1 w2 Hw. unfold render_row, for_up.
      apply (for_loop_related same_render).
      + intros i v1 v2 Hv. apply render_pixel_related. exact Hv.
      + destruct Hw as [Hgen Himage]. split; [exact Hgen | exact Himage].
    - split; reflexivity. }
  destruct Hsame as [Hgen Himage].
  split; [exact Himage | exact Hgen].
Qed.

End RenderRuns.

(** Thirty-two workers for a budget of sixteen samples: none is cast, and
    the generator keeps its one scripted draw. *)
Lemma renderImage_without_samples_32_workers :
  gen (renderImage (mkconfig 3 16 32 (lit 1.5) 5) Demo.cam [Demo.grey] 0
         (Demo.fresh (mkconfig 3 16 32 (lit 1.5) 5) [lit 0.5])) =
  gen (Demo.fresh (mkconfig 3 16 32 (lit 1.5) 5) [lit 0.5]).
Proof.
  refine (proj1 (renderImage_without_samples (mkconfig 3 16 32 (lit 1.5) 5) Demo.cam
                   [Demo.grey] 0 (Demo.fresh (mkconfig 3 16 32 (lit 1.5) 5) [lit 0.5]) _)).
  vm_compute. discriminate.
Defined.

(** ** Ranges, in exact arithmetic *)

Lemma decimal_counter_draws : draws_in_unit_interval (decimal_counter (D := Q)).
Proof.
  intros g. cbn [random_double decimal_counter fst ddiv of_int exact].
  pose proof (Z.mod_pos_bound g 10 ltac:(lia)) as Hmod.
  assert (H0 : (0 <= inject_Z (g mod 10))%Q).
  { change 0%Q with (inject_Z 0). rewrite <- Zle_Qle. lia. }
  assert (H1 : (inject_Z (g mod 10) < inject_Z 10)%Q).
  { rewrite <- Zlt_Qlt. lia. }
  split.
  - apply Qle_shift_div_l; [reflexivity | lra].
  - apply Qlt_shift_div_r; [reflexivity | lra].
Qed.

Section SceneRanges.

Context {floating : Floating Q} {G : Type} {random : Random Q G}.
Hypothesis draws : draws_in_unit_interval random.

Lemma random_double_in_range (lo hi : Q) (g : G) :
  (lo <= hi)%Q ->
  (lo <= fst (random_double_in lo hi g) <= hi)%Q.
Proof.
  intros Hle. unfold random_double_in, bind, ret.
  pose proof (draws g) as Hr.
  destruct (random_double g) as [r g1]. cbn [fst] in Hr |- *.
  cbn [dadd dsub dmul exact].
  split; nra.
Qed.

Lemma color_random_range (g : G) : channels_within 0 1 (fst (color_random g)).
Proof.
  unfold color_random, bind, ret.
  pose proof (draws g) as Ha. destruct (random_double g) as [a g1].
  pose proof (draws g1) as Hb. destruct (random_double g1) as [b g2].
  pose proof (draws g2) as Hc. destruct (random_double g2) as [c g3].
  cbn [fst] in *. unfold channels_within. cbn [x y z].
  repeat split; lra.
Qed.

Lemma color_random_in_range (lo hi : Q) (g : G) :
  (lo <= hi)%Q -> channels_within lo hi (fst (color_random_in lo hi g)).
Proof.
  intros Hle. unfold color_random_in, bind, ret.
  pose proof (random_double_in_range lo hi g Hle) as Ha.
  destruct (random_double_in lo hi g) as [a g1].
  pose proof (random_double_in_range lo hi g1 Hle) as Hb.
  destruct (random_double_in lo hi g1) as [b g2].
  pose proof (random_double_in_range lo hi g2 Hle) as Hc.
  destruct (random_double_in lo hi g2) as [c g3].
  cbn [fst] in *. unfold channels_within. cbn [x y z].
  repeat split; lra.
Qed.

Lemma scene_cell_valid (a b : Z) (world : hittable_list Q) (g : G) :
  Forall (fun s => valid_material (sphere_material s)) world ->
  Forall (fun s => valid_material (sphere_material s)) (fst (scene_cell a b world g)).
Proof.
  intros Hworld. unfold scene_cell, bind.
  destruct (random_double g) as [choose_mat g1].
  destruct (random_double g1) as [cx g2].
  destruct (random_double g2) as [cz g3].
  destruct (clear_of_metal_sphere _); [| exact Hworld].
  destruct (choose_mat <? lit 0.8)%D; [| destruct (choose_mat <? lit 0.95)%D].
  - pose proof (color_random_range g3) as H1.
    destruct (color_random g3) as [c1 g4].
    pose proof (color_random_range g4) as H2.
    destruct (color_random g4) as [c2 g5].
    cbn [fst ret] in *. unfold add. apply Forall_app. split; [exact Hworld |].
    constructor; [| constructor].
    cbn [sphere_material valid_material].
    destruct H1 as (H1x & H1y & H1z), H2 as (H2x & H2y & H2z).
    unfold channels_within, vmul. cbn [x y z dmul exact].
    repeat split; nra.
  - assert (Hhalf : (lit 0.5 <= of_int 1)%Q) by (vm_compute; discriminate).
    pose proof (color_random_in_range (lit 0.5) (of_int 1) g3 Hhalf) as Halbedo.
    destruct (color_random_in (lit 0.5) (of_int 1) g3) as [albedo g4].
    assert (Hfuzz0 : (of_int 0 <= lit 0.5)%Q) by (vm_compute; discriminate).
    pose proof (random_double_in_range (of_int 0) (lit 0.5) g4 Hfuzz0) as Hfuzz.
    destruct (random_double_in (of_int 0) (lit 0.5) g4) as [fuzz g5].
    cbn [fst ret] in *. unfold add. apply Forall_app. split; [exact Hworld |].
    constructor; [| constructor].
    cbn [sphere_material valid_material].
    split; [exact Halbedo | exact Hfuzz].
  - cbn [fst ret]. unfold add. apply Forall_app. split; [exact Hworld |].
    constructor; [| constructor].
    reflexivity.
Qed.

(** X12.  In exact arithmetic, with a generator whose draws lie in [0, 1),
    every object of the scene has material parameters that make sense:
    each diffuse albedo has its channels in [0, 1], each metal has albedo
    channels in [0.5, 1] and a fuzz in [0, 0.5], and every glass sphere has
    refractive index 1.5. *)
Theorem random_scene_materials_valid (g : G) :
  Forall (fun s => valid_material (sphere_material s)) (fst (random_scene g)).
Proof.
  unfold random_scene, for_up.
  assert (Hloop :
            Forall (fun s => valid_material (sphere_material s))
                   (fst (for_loop (Z.to_nat (11 - -11)) (-11) 1 scene_row
                           (add [] ground_sphere, g)))).
  { apply (for_loop_invariant
             (fun _ (s : hittable_list Q * G) =>
                Forall (fun s => valid_material (sphere_material s)) (fst s))
             scene_row 1) with (k := O).
    - intros _ a s Hs. unfold scene_row, for_up.
      apply (for_loop_invariant
               (fun _ (s : hittable_list Q * G) =>
                  Forall (fun s => valid_material (sphere_material s)) (fst s))
               (fun b '(world, g) => scene_cell a b world g) 1) with (k := O).
      + intros _ b [world g0] Hw. apply scene_cell_valid. exact Hw.
      + exact Hs.
    - cbn [fst add app]. constructor; [| constructor].
      cbn [sphere_material ground_sphere valid_material].
      unfold channels_within. cbn [x y z lit exact].
      repeat split; vm_compute; discriminate. }
  destruct (for_loop (Z.to_nat (11 - -11)) (-11) 1 scene_row (add [] ground_sphere, g))
    as [world g'].
  cbn [fst] in Hloop |- *. unfold add.
  repeat (apply Forall_app; split); [exact Hloop | | |];
    (constructor; [| constructor]).
  - reflexivity.
  - cbn [sphere_material sphere2 valid_material].
    unfold channels_within. cbn [x y z lit exact].
    repeat split; vm_compute; discriminate.
  - cbn [sphere_material sphere3 valid_material].
    unfold channels_within. cbn [x y z lit exact].
    repeat split; vm_compute; discriminate.
Qed.

End SceneRanges.

(** The scene drawn by the decimal counter started at 7. *)
Lemma random_scene_materials_valid_counter :
  Forall (fun s => valid_material (sphere_material s))
         (fst (random_scene (G := Z) 7)).
Proof.
  exact (random_scene_materials_valid decimal_counter_draws 7).
Defined.

Lemma for_loop_indexed {S : Type} (I : S -> Prop) (body : Z -> S -> S) (step : Z) :
  forall n i s,
    I s ->
    (forall k s', In k (indices n i step) -> I s' -> I (body k s')) ->
    I (for_loop n i step body s).
Proof.
  induction n as [| n IH]; intros i s Hs Hbody; cbn [for_loop].
  - exact Hs.
  - apply IH.
    + apply Hbody; [left; reflexivity | exact Hs].
    + intros k s' Hk Hs'. apply Hbody; [right; exact Hk | exact Hs'].
Qed.

Section RenderRanges.

Context {floating : Floating Q} {G C P : Type} {random : Random Q G}.
Context {mat : Material Q G (material Q)}.
Context {hittable : Hittable Q (material Q) (hittable_list Q)}.
Context {camera : Camera Q G C} {tonemap : ToneMap Q P}.
Hypothesis draws : draws_in_unit_interval random.

Variable cfg : config Q.
Variable cam : C.

Lemma in_range_since_refl (w : worker Q G P) : in_range_since cfg w w.
Proof.
  exists []. split; [symmetry; apply app_nil_r | constructor].
Qed.

Lemma in_range_since_trans (w w1 w2 : worker Q G P) :
  in_range_since cfg w w1 -> in_range_since cfg w1 w2 -> in_range_since cfg w w2.
Proof.
  intros (cs1 & H1 & Hall1) (cs2 & H2 & Hall2).
  exists (cs1 ++ cs2). split.
  - rewrite H2, H1, app_assoc. reflexivity.
  - apply Forall_app. split; assumption.
Qed.

Lemma sample_in_range (world : hittable_list Q) (i j : Z) (s : color Q * worker Q G P) :
  1 < image_width cfg -> 1 < image_height cfg ->
  0 <= i < image_width cfg -> 0 <= j < image_height cfg ->
  in_range_since cfg (snd s) (snd (sample cfg cam world i j s)).
Proof.
  intros Hwidth Hheight Hi Hj.
  destruct s as [pixel_color w]. cbn [snd].
  eexists. split; [apply sample_call |].
  constructor; [| constructor].
  assert (Hu : (0 <= fst (random_double (gen w)) <= 1)%Q).
  { destruct (draws (gen w)) as [Hlo Hhi]. split; [exact Hlo | apply Qlt_le_weak, Hhi]. }
  assert (Hv : (0 <= fst (random_double (snd (random_double (gen w)))) <= 1)%Q).
  { destruct (draws (snd (random_double (gen w)))) as [Hlo Hhi].
    split; [exact Hlo | apply Qlt_le_weak, Hhi]. }
  destruct (coordinate_bounds (image_width cfg) i _ Hwidth Hi Hu) as (Hu0 & Hu1 & Hu2 & _).
  destruct (coordinate_bounds (image_height cfg) j _ Hheight Hj Hv) as (Hv0 & Hv1 & Hv2 & _).
  cbn [coordinates_in_range].
  unfold pixel_u, pixel_v. cbn [ddiv dadd of_int exact].
  repeat split; try assumption; lia.
Qed.

(** X13.  In exact arithmetic, with a generator whose draws lie in [0, 1)
    and an image more than one pixel wide and high, every pair of
    coordinates a worker hands to the camera belongs to a pixel inside the
    image and lies in [0, image_width / (image_width - 1)] x
    [0, image_height / (image_height - 1)], bounds included; u is at most 1
    before the column of index image_width - 1 and v at most 1 before the
    row of index image_height - 1.  The bounds are the closed ones of
    [coordinate_bounds]. *)
Theorem renderImage_coordinates_in_range (world : hittable_list Q) (thread : Z)
        (w : worker Q G P) :
  1 < image_width cfg -> 1 < image_height cfg ->
  exists cs : list (call Q P),
    calls (renderImage cfg cam world thread w) = calls w ++ cs /\
    Forall (coordinates_in_range cfg) cs.
Proof.
  intros Hwidth Hheight.
  change (in_range_since cfg w (renderImage cfg cam world thread w)).
  unfold renderImage, for_down.
  apply (for_loop_indexed (in_range_since cfg w)); [apply in_range_since_refl |].
  intros j w1 Hj Hw1.
  apply indices_in in Hj. destruct Hj as (q & Hq & ->).
  apply (in_range_since_trans w w1); [exact Hw1 |].
  unfold render_row, for_up.
  apply (in_range_since_trans w1
           (mkworker (gen w1) (image w1)
                     (calls w1 ++ [Update thread (image_height cfg - 1 + -1 * Z.of_nat q)]))).
  { eexists. split; [reflexivity |]. constructor; [exact I | constructor]. }
  apply (for_loop_indexed (in_range_since cfg _)); [apply in_range_since_refl |].
  intros i w2 Hi Hw2.
  apply indices_in in Hi. destruct Hi as (r & Hr & ->).
  apply (in_range_since_trans _ w2); [exact Hw2 |].
  unfold render_pixel, for_up.
  assert (Hsamples :
            in_range_since cfg w2
              (snd (for_loop (Z.to_nat (samples_per_pixel cfg - 0)) 0 1
                      (fun _ => sample cfg cam world (0 + 1 * Z.of_nat r)
                                       (image_height cfg - 1 + -1 * Z.of_nat q))
                      (mkvec3 (of_int 0) (of_int 0) (of_int 0), w2)))).
  { apply (for_loop_indexed (fun s => in_range_since cfg w2 (snd s)));
      [apply in_range_since_refl |].
    intros k s _ Hs.
    apply (in_range_since_trans w2 (snd s)); [exact Hs |].
    apply sample_in_range; lia. }
  destruct (for_loop _ _ _ _ _) as [pixel_color w3].
  cbn [snd] in Hsamples.
  apply (in_range_since_trans w2 w3); [exact Hsamples |].
  eexists. split; [reflexivity |]. constructor; [exact I | constructor].
Qed.

End RenderRanges.

(** A 4 x 4 image rendered in exact arithmetic with the decimal counter. *)
Lemma renderImage_coordinates_in_range_4x4 :
  exists cs : list (call Q (Z * Z * Z)),
    calls (renderImage (mkconfig 4 2 1 1%Q 3) Demo.exact_cam [] 0
             (mkworker 0 (mkImage 4 4 []) [])) =
      calls (mkworker (G := Z) (P := Z * Z * Z) 0 (mkImage 4 4 []) []) ++ cs /\
    Forall (coordinates_in_range (mkconfig 4 2 1 1%Q 3)) cs.
Proof.
  refine (renderImage_coordinates_in_range decimal_counter_draws
            (mkconfig 4 2 1 1%Q 3) Demo.exact_cam [] 0
            (mkworker 0 (mkImage 4 4 []) []) _ _).
  - reflexivity.
  - vm_compute. reflexivity.
Defined.

(** ** A worker and the tracker together *)

Lemma filter_ends_with {A : Type} (p : A -> bool) (l pre : list A) (a : A) :
  filter p l = pre ++ [a] ->
  exists before after : list A,
    l = before ++ a :: after /\ Forall (fun b => p b = false) after.
Proof.
  revert pre. induction l as [| b l IH] using rev_ind; intros pre Hfilter.
  - destruct pre; discriminate Hfilter.
  - rewrite filter_app in Hfilter. cbn [filter] in Hfilter.
    destruct (p b) eqn:Hb.
    + apply app_inj_tail in Hfilter. destruct Hfilter as [_ ->].
      exists l, []. split; [reflexivity | constructor].
    + rewrite app_nil_r in Hfilter.
      destruct (IH pre Hfilter) as (before & after & -> & Hafter).
      exists before, (after ++ [b]). split.
      * rewrite <- app_assoc. reflexivity.
      * apply Forall_app. split; [exact Hafter |].
        constructor; [exact Hb | constructor].
Qed.

Section WorkerAndTracker.

Context {D : Type} {arith : Arith D} {floating : Floating D}.
Context {G C P : Type} {random : Random D G}.
Context {mat : Material D G (material D)}.
Context {hittable : Hittable D (material D) (hittable_list D)}.
Context {camera : Camera D G C} {tonemap : ToneMap D P}.

Variable cfg : config D.
Variable cam : C.

(** X14.  When a worker has finished, the tracker shows no line left for
    it.  Let the reports of all workers reach the tracker in any order the
    mutex lets them, at any times; if those of one worker are the ones its
    run of [renderImage] makes, on an image of at least one row and under
    an index inside the vector of counters, then at the end that worker's
    counter reads 0. *)
Theorem finished_worker_reads_zero (world : hittable_list D) (thread : Z)
        (w : worker D G P) (rs : list (report D)) (pr : ThreadSafeProgress D) :
  calls w = [] ->
  0 < image_height cfg ->
  0 <= thread < Z.of_nat (List.length (linesLeft pr)) ->
  map (fun r => (worker_index r, lines r))
      (filter (fun r => worker_index r =? thread) rs) =
    update_calls (calls (renderImage cfg cam world thread w)) ->
  nth_error (linesLeft (fst (updates rs pr))) (Z.to_nat thread) = Some 0.
Proof.
  intros Hfresh Hheight Hthread Hreports.
  destruct (renderImage_extends cfg cam world thread w) as (cs & Hcalls & _ & Houtline).
  rewrite Hcalls, Hfresh in Hreports. cbn [app] in Hreports.
  rewrite update_calls_outline, Houtline, update_calls_image_outline in Hreports.
  unfold rows in Hreports.
  replace (Z.to_nat (image_height cfg))
    with (Z.to_nat (image_height cfg - 1) + 1)%nat in Hreports by lia.
  rewrite indices_split in Hreports. cbn [indices] in Hreports.
  rewrite map_app in Hreports. cbn [map] in Hreports.
  replace (image_height cfg - 1 + -1 * Z.of_nat (Z.to_nat (image_height cfg - 1)))
    with 0 in Hreports by lia.
  apply map_eq_app in Hreports.
  destruct Hreports as (f1 & f2 & Hfilter & _ & Hlast).
  destruct f2 as [| r [| r' f2]]; try discriminate Hlast.
  cbn [map] in Hlast. injection Hlast as Hworker Hlines.
  destruct (filter_ends_with _ _ _ _ Hfilter) as (before & after & -> & Hafter).
  rewrite <- Hworker, <- Hlines.
  apply last_report_stays.
  - rewrite Hworker. exact Hthread.
  - apply Forall_forall. intros r' Hin.
    rewrite Forall_forall in Hafter. specialize (Hafter r' Hin). cbn beta in Hafter.
    apply Z.eqb_neq in Hafter. rewrite Hworker. exact Hafter.
Qed.

End WorkerAndTracker.

(** Worker 0 renders a 3 x 2 image while worker 1 reports too. *)
Lemma finished_worker_reads_zero_of_two :
  nth_error
    (linesLeft
       (fst (updates (D := float)
                     [mkreport (lit 1.0) (lit 1.0) 0 1; mkreport (lit 2.0) (lit 2.0) 1 5;
                      mkreport (lit 3.0) (lit 3.0) 0 0; mkreport (lit 4.0) (lit 4.0) 1 4]
                     (mkProgress [0; 0] (mkTimer (lit 0.0)) (lit 0.0)))))
    (Z.to_nat 0) = Some 0.
Proof.
  refine (finished_worker_reads_zero (mkconfig 3 2 1 (lit 1.5) 5) Demo.cam [Demo.grey] 0
            (Demo.fresh (mkconfig 3 2 1 (lit 1.5) 5) []) _ _ _ _ _ _).
  - reflexivity.
  - vm_compute. reflexivity.
  - cbn. lia.
  - vm_compute. reflexivity.
Defined.
